(** * tellenc: guessing the encoding of a byte buffer

    A shallow embedding of [tellenc.cpp] (version 1.2) and the properties of
    its detection routine.  Bytes are [Byte.byte]; the C integers are [Z];
    the three file-level statics [is_binary], [is_utf8_conformant] and
    [nul_stat] together with [utf8_char_table] are threaded explicitly as a
    [globals] record, since [tellenc] reads and writes them.

    What the C++ implementation leaves to the platform is collected in a
    [Platform] record: whether plain [char] is signed, the width of
    [size_t], and the algorithm behind [std::sort], of which only the
    contract of the standard is known (the result is a permutation of the
    input ordered by the comparator; the order of equivalent elements is
    not fixed).  Two sorts instantiate it: a stable insertion sort, which
    leaves equal counts in the ascending order the specification asks
    for, and [gnu_sort], the [std::sort] of the GNU C++ library.

    The diagnostic output under [verbose] has no influence on the statics
    or on the returned label and is left out. *)

From Stdlib Require Import ZArith List Bool String Lia Permutation Sorted.
From Stdlib Require Import Strings.Byte.
Import ListNotations.
Local Open Scope string_scope.
Local Open Scope list_scope.
Local Open Scope Z_scope.

(** ** Types and constants (lines 53-94) *)

Definition TELLENC_BUFFER_SIZE : Z := 100000.

(** [pair<uint16_t, size_t>]: a byte or digraph value and its count. *)
Definition char_count_t : Type := (Z * Z)%type.

Record freq_analysis_data_t : Type := { dbyte : Z; enc : string }.

(** [greater_char_count::operator()]: [lhs.second > rhs.second]. *)
Definition greater_char_count (lhs rhs : char_count_t) : bool :=
  snd rhs <? snd lhs.

Inductive UTF8_State : Type :=
| UTF8_INVALID | UTF8_1 | UTF8_2 | UTF8_3 | UTF8_4 | UTF8_TAIL.

(** The integer value of an enumerator; [utf8_state] is an [int]. *)
Definition enum_value (s : UTF8_State) : Z :=
  match s with
  | UTF8_INVALID => 0 | UTF8_1 => 1 | UTF8_2 => 2
  | UTF8_3 => 3 | UTF8_4 => 4 | UTF8_TAIL => 5
  end.

Definition MAX_CHAR : nat := 256.
Definition NON_TEXT_CHARS : list Z := [0; 26; 127; 255].
Definition NUL : Z := 0.
Definition ODD : Z := 1.
Definition EVEN : Z := 2.
Definition EOF : Z := -1.

Definition freq_analysis_data : list freq_analysis_data_t :=
  [ {| dbyte := 0xa3ac; enc := "gbk" |};  {| dbyte := 0xa1a3; enc := "gbk" |};
    {| dbyte := 0xa1a1; enc := "gbk" |};  {| dbyte := 0xa1ad; enc := "gbk" |};
    {| dbyte := 0xb5c4; enc := "gbk" |};  {| dbyte := 0xbfc9; enc := "gbk" |};
    {| dbyte := 0xbaf3; enc := "gbk" |};  {| dbyte := 0xd2bb; enc := "gbk" |};
    {| dbyte := 0xced2; enc := "gbk" |};  {| dbyte := 0xcac7; enc := "gbk" |};
    {| dbyte := 0xb8f6; enc := "gbk" |};  {| dbyte := 0xb2bb; enc := "gbk" |};
    {| dbyte := 0xc8cb; enc := "gbk" |};  {| dbyte := 0xd5e2; enc := "gbk" |};
    {| dbyte := 0xc1cb; enc := "gbk" |};  {| dbyte := 0xd6ae; enc := "gbk" |};
    {| dbyte := 0xa141; enc := "big5" |}; {| dbyte := 0xa143; enc := "big5" |};
    {| dbyte := 0xaaba; enc := "big5" |}; {| dbyte := 0xa7da; enc := "big5" |};
    {| dbyte := 0xa54c; enc := "big5" |}; {| dbyte := 0xa66f; enc := "big5" |};
    {| dbyte := 0xa4a3; enc := "big5" |}; {| dbyte := 0xa440; enc := "big5" |};
    {| dbyte := 0xa446; enc := "big5" |}; {| dbyte := 0xa457; enc := "big5" |};
    {| dbyte := 0xbba1; enc := "big5" |}; {| dbyte := 0xac4f; enc := "big5" |};
    {| dbyte := 0xa662; enc := "big5" |} ].

(** The value of an [unsigned char]. *)
Definition uchar (b : byte) : Z := Z.of_N (Byte.to_N b).

(** ** The platform *)

(** [counts_descending l]: no element is [greater_char_count] than one
    before it, the postcondition of [std::sort] with that comparator. *)
Definition counts_descending (l : list char_count_t) : Prop :=
  StronglySorted (fun a b => greater_char_count b a = false) l.

Record Platform : Type := {
  char_is_signed : bool;
  size_t_bits : N;
  sort : (char_count_t -> char_count_t -> bool) ->
         list char_count_t -> list char_count_t;
  sort_permutes : forall l, Permutation l (sort greater_char_count l);
  sort_orders : forall l, counts_descending (sort greater_char_count l)
}.

(** Unsigned [size_t] arithmetic wraps modulo [2 ^ size_t_bits].  The
    counters of [tellenc] are only ever incremented once per byte, so they
    stay below [len], itself a [size_t]; the product in the latin1 test is
    the one operation that can wrap. *)
Definition size_t_wrap (P : Platform) (x : Z) : Z :=
  x mod 2 ^ Z.of_N (size_t_bits P).

(** Passing an [unsigned char] for a [char] parameter. *)
Definition char_of_uchar (P : Platform) (ch : Z) : Z :=
  if char_is_signed P && (127 <? ch) then ch - 256 else ch.

(** ** File-level state (lines 96, 130-133) *)

Record globals : Type := {
  utf8_char_table : list UTF8_State;
  is_binary : bool;
  is_utf8_conformant : bool;
  nul_stat : Z
}.

(** The statics as the loader leaves them: a zeroed table, and the
    initialisers of lines 130-133. *)
Definition initial_globals : globals :=
  {| utf8_char_table := repeat UTF8_INVALID MAX_CHAR;
     is_binary := false;
     is_utf8_conformant := true;
     nul_stat := 0 |}.

(** ** Helpers (lines 137-197) *)

Definition is_non_text (P : Platform) (ch : Z) : bool :=
  existsb (fun c => char_of_uchar P ch =? c) NON_TEXT_CHARS.

Definition is_odd_even (pos : Z) : Z :=
  let pos := Z.land pos 1 in
  if negb (pos =? 0) then ODD else EVEN.

Fixpoint set_nth {A : Type} (i : nat) (v : A) (a : list A) : list A :=
  match a, i with
  | [], _ => []
  | _ :: r, O => v :: r
  | x :: r, S j => x :: set_nth j v r
  end.

(** [for (; ch <= hi; ++ch) table[ch] = v;], returning the table and [ch]. *)
Definition fill_upto (hi : Z) (v : UTF8_State)
    (st : list UTF8_State * Z) : list UTF8_State * Z :=
  let '(tbl, ch) := st in
  (fold_left (fun t i => set_nth (Z.to_nat (ch + Z.of_nat i)) v t)
             (seq 0 (Z.to_nat (hi + 1 - ch))) tbl,
   Z.max ch (hi + 1)).

Definition init_utf8_char_table (g : globals) : globals :=
  let ch := 0 in
  let tbl := set_nth (Z.to_nat ch) UTF8_INVALID (utf8_char_table g) in
  let ch := ch + 1 in
  let st := fill_upto 0x7F UTF8_1 (tbl, ch) in
  let st := fill_upto 0xBF UTF8_TAIL st in
  let st := fill_upto 0xC1 UTF8_INVALID st in
  let st := fill_upto 0xDF UTF8_2 st in
  let st := fill_upto 0xEF UTF8_3 st in
  let st := fill_upto 0xF4 UTF8_4 st in
  let st := fill_upto 0xFF UTF8_INVALID st in
  {| utf8_char_table := fst st;
     is_binary := is_binary g;
     is_utf8_conformant := is_utf8_conformant g;
     nul_stat := nul_stat g |}.

Definition init_char_count : list char_count_t :=
  map (fun i => (Z.of_nat i, 0)) (seq 0 MAX_CHAR).

(** ** BOM detection (lines 219-240) *)

Record bom_pattern : Type :=
  { name : string; pattern : list byte; pattern_len : nat }.

Definition patterns : list bom_pattern :=
  [ {| name := "ucs-4";    pattern := [x00; x00; xfe; xff]; pattern_len := 4 |};
    {| name := "ucs-4le";  pattern := [xff; xfe; x00; x00]; pattern_len := 4 |};
    {| name := "utf-8";    pattern := [xef; xbb; xbf];      pattern_len := 3 |};
    {| name := "utf-16";   pattern := [xfe; xff];           pattern_len := 2 |};
    {| name := "utf-16le"; pattern := [xff; xfe];           pattern_len := 2 |} ].

Fixpoint bytes_eqb (a b : list byte) : bool :=
  match a, b with
  | [], [] => true
  | x :: a', y :: b' => Byte.eqb x y && bytes_eqb a' b'
  | _, _ => false
  end.

(** [memcmp(buffer, pattern, n) == 0]; the buffer holds at least [n]
    bytes wherever [tellenc] calls it. *)
Definition memcmp_eq (buffer pat : list byte) (n : nat) : bool :=
  bytes_eqb (firstn n buffer) (firstn n pat).

Definition check_ucs_bom (buffer : list byte) : option string :=
  option_map name
    (find (fun p => memcmp_eq buffer (pattern p) (pattern_len p)) patterns).

(** ** Digraph dictionary (lines 242-266) *)

Definition check_dbyte (d : Z) : option string :=
  option_map enc (find (fun e => d =? dbyte e) freq_analysis_data).

Fixpoint first_enc (v : list char_count_t) : option string :=
  match v with
  | [] => None
  | it :: r =>
      match check_dbyte (fst it) with
      | Some e => Some e
      | None => first_enc r
      end
  end.

Definition check_freq_dbytes (dbyte_char_cnt : list char_count_t)
    : option string :=
  let max_comp_idx := 10%nat in
  let max_comp_idx :=
    if (List.length dbyte_char_cnt <? max_comp_idx)%nat
    then List.length dbyte_char_cnt else max_comp_idx in
  first_enc (firstn max_comp_idx dbyte_char_cnt).

(** ** The scan (lines 282-351) *)

(** [map<uint16_t, size_t>]: an association list kept in ascending key
    order, which is the order its iterator visits. [map_incr k m] is
    [m[k]++]. *)
Fixpoint map_incr (k : Z) (m : list char_count_t) : list char_count_t :=
  match m with
  | [] => [(k, 1)]
  | (k', v) :: r =>
      if k <? k' then (k, 1) :: m
      else if k =? k' then (k', v + 1) :: r
      else (k', v) :: map_incr k r
  end.

(** [char_cnt[i].second++]. *)
Fixpoint incr_second (i : nat) (a : list char_count_t) : list char_count_t :=
  match a, i with
  | [], _ => []
  | (k, c) :: r, O => (k, c + 1) :: r
  | x :: r, S j => x :: incr_second j r
  end.

Record scan_state : Type := {
  statics : globals;
  utf8_state : Z;
  char_cnt : list char_count_t;
  mp_dbyte_char_cnt : list char_count_t;
  dbyte_cnt : Z;
  dbyte_hihi_cnt : Z;
  last_ch : Z;
  offset : Z            (* p - buffer *)
}.

(** The [switch] of lines 298-337 on the conformance flag and the state. *)
Definition utf8_switch (tbl : list UTF8_State) (conformant : bool)
    (state : Z) (ch : Z) : bool * Z :=
  if conformant then
    match nth (Z.to_nat ch) tbl UTF8_INVALID with
    | UTF8_INVALID => (false, state)
    | UTF8_1 =>
        if negb (state =? enum_value UTF8_1) then (false, state)
        else (true, state)
    | UTF8_2 =>
        if state =? enum_value UTF8_1 then (true, enum_value UTF8_2)
        else (false, state)
    | UTF8_3 =>
        if state =? enum_value UTF8_1 then (true, enum_value UTF8_3)
        else (false, state)
    | UTF8_4 =>
        if state =? enum_value UTF8_1 then (true, enum_value UTF8_4)
        else (false, state)
    | UTF8_TAIL =>
        if enum_value UTF8_1 <? state then (true, state - 1)
        else (false, state)
    end
  else (conformant, state).

(** One turn of the [while] loop on the byte [*p]. *)
Definition scan_step (P : Platform) (s : scan_state) (b : byte) : scan_state :=
  let ch := uchar b in
  let g := statics s in
  let bin :=
    if is_non_text P ch then true else is_binary g in
  let nul :=
    if is_non_text P ch && (ch =? NUL)
    then Z.lor (nul_stat g) (is_odd_even (offset s)) else nul_stat g in
  let '(conf, state) :=
    utf8_switch (utf8_char_table g) (is_utf8_conformant g) (utf8_state s) ch in
  let g' := {| utf8_char_table := utf8_char_table g;
               is_binary := bin;
               is_utf8_conformant := conf;
               nul_stat := nul |} in
  let cnt := incr_second (Z.to_nat ch) (char_cnt s) in
  if negb (last_ch s =? EOF) then
    let dbyte_char := (Z.shiftl (last_ch s) 8 + ch) mod 65536 in
    {| statics := g'; utf8_state := state; char_cnt := cnt;
       mp_dbyte_char_cnt := map_incr dbyte_char (mp_dbyte_char_cnt s);
       dbyte_cnt := dbyte_cnt s + 1;
       dbyte_hihi_cnt :=
         if (0xa0 <? last_ch s) && (0xa0 <? ch)
         then dbyte_hihi_cnt s + 1 else dbyte_hihi_cnt s;
       last_ch := EOF;
       offset := offset s + 1 |}
  else
    {| statics := g'; utf8_state := state; char_cnt := cnt;
       mp_dbyte_char_cnt := mp_dbyte_char_cnt s;
       dbyte_cnt := dbyte_cnt s;
       dbyte_hihi_cnt := dbyte_hihi_cnt s;
       last_ch := if 0x80 <=? ch then ch else last_ch s;
       offset := offset s + 1 |}.

(** The locals as they stand when the loop is entered. *)
Definition scan_init (g : globals) : scan_state :=
  {| statics := g; utf8_state := enum_value UTF8_1;
     char_cnt := init_char_count;
     mp_dbyte_char_cnt := [];
     dbyte_cnt := 0; dbyte_hihi_cnt := 0;
     last_ch := EOF; offset := 0 |}.

Definition scan_from (P : Platform) (s : scan_state) (buffer : list byte)
    : scan_state :=
  fold_left (scan_step P) buffer s.

Definition scan (P : Platform) (g : globals) (buffer : list byte)
    : scan_state :=
  scan_from P (scan_init g) buffer.

(** ** After the scan (lines 353-397) *)

(** The vector filled by [push_back] while iterating over the map. *)
Definition map_to_vector (m : list char_count_t) : list char_count_t :=
  fold_left (fun v it => v ++ [it]) m [].

Definition sorted_char_cnt (P : Platform) (s : scan_state)
    : list char_count_t :=
  sort P greater_char_count (char_cnt s).

Definition sorted_dbyte_char_cnt (P : Platform) (s : scan_state)
    : list char_count_t :=
  sort P greater_char_count (map_to_vector (mp_dbyte_char_cnt s)).

(** The chain of [if]s of lines 377-397; [None] is the [NULL] result. *)
Definition verdict (P : Platform) (s : scan_state) : option string :=
  let g := statics s in
  if negb (is_utf8_conformant g) && is_binary g then
    if nul_stat g =? ODD then Some "utf-16le"
    else if nul_stat g =? EVEN then Some "utf-16"
    else Some "binary"
  else if dbyte_cnt s =? 0 then Some "ascii"
  else if is_utf8_conformant g then Some "utf-8"
  else if size_t_wrap P (dbyte_hihi_cnt s * 100) / dbyte_cnt s <? 5
       then Some "latin1"
  else if dbyte_hihi_cnt s =? dbyte_cnt s then Some "gb2312"
  else check_freq_dbytes (sorted_dbyte_char_cnt P s).

(** [tellenc(buffer, len)] started with the statics [g]: the statics it
    leaves behind, and the label ([None] for [NULL]). *)
Definition tellenc (P : Platform) (g : globals) (buffer : list byte)
    : globals * option string :=
  let len := List.length buffer in
  match (if (4 <? len)%nat then check_ucs_bom buffer else None) with
  | Some result => (g, Some result)
  | None =>
      let s := scan P g buffer in
      (statics s, verdict P s)
  end.

(** ** The caller (lines 422-431) *)

(** What [main] writes to standard output for a file whose contents are
    [file]: at most [TELLENC_BUFFER_SIZE] bytes are read, the table is
    filled, and a [NULL] result is printed as "unknown". *)
Definition main_output (P : Platform) (file : list byte) : string :=
  let buffer := firstn (Z.to_nat TELLENC_BUFFER_SIZE) file in
  let g := init_utf8_char_table initial_globals in
  match snd (tellenc P g buffer) with
  | Some enc => enc
  | None => "unknown"
  end.

(** The statics at the one call of [tellenc] in [main]. *)
Definition fresh : globals := init_utf8_char_table initial_globals.

(** ** A sorting algorithm that meets the contract of [std::sort]

    An insertion sort that keeps elements of equal count in their input
    order (a stable sort): on a histogram in ascending key order, the
    tie order the specification asks of a sort. *)

Fixpoint insert_before_ties (comp : char_count_t -> char_count_t -> bool)
    (x : char_count_t) (l : list char_count_t) : list char_count_t :=
  match l with
  | [] => [x]
  | e :: r => if comp e x then e :: insert_before_ties comp x r else x :: l
  end.

Definition stable_sort (comp : char_count_t -> char_count_t -> bool)
    (l : list char_count_t) : list char_count_t :=
  fold_right (insert_before_ties comp) [] l.

Lemma insert_before_ties_perm comp x l :
  Permutation (x :: l) (insert_before_ties comp x l).
Proof.
  induction l as [|e r IH]; simpl; [reflexivity|].
  destruct (comp e x); [|reflexivity].
  rewrite perm_swap. now constructor.
Qed.

Lemma stable_sort_permutes l : Permutation l (stable_sort greater_char_count l).
Proof.
  induction l as [|x l IH]; simpl; [constructor|].
  rewrite <- insert_before_ties_perm. now constructor.
Qed.

Lemma greater_false_iff a b : greater_char_count b a = false <-> snd b <= snd a.
Proof. unfold greater_char_count. rewrite Z.ltb_ge. reflexivity. Qed.

Lemma greater_true_iff a b : greater_char_count b a = true <-> snd a < snd b.
Proof. unfold greater_char_count. rewrite Z.ltb_lt. reflexivity. Qed.

Lemma insert_before_ties_orders x l :
  counts_descending l ->
  counts_descending (insert_before_ties greater_char_count x l).
Proof.
  unfold counts_descending.
  induction 1 as [|e r Hr IH He]; simpl.
  - repeat constructor.
  - destruct (greater_char_count e x) eqn:C.
    + constructor; [exact IH|].
      eapply Permutation_Forall; [apply insert_before_ties_perm|].
      constructor; [|exact He].
      apply greater_false_iff. apply greater_true_iff in C. lia.
    + apply greater_false_iff in C.
      constructor; [now constructor|].
      constructor; [now apply greater_false_iff|].
      eapply Forall_impl; [|exact He].
      intros b Hb. apply greater_false_iff in Hb. apply greater_false_iff. lia.
Qed.

Lemma stable_sort_orders l : counts_descending (stable_sort greater_char_count l).
Proof.
  induction l as [|x l IH]; simpl; [constructor|].
  now apply insert_before_ties_orders.
Qed.

(** A platform with signed [char], 32-bit [size_t] and a stable sort. *)
Definition stable_platform : Platform :=
  {| char_is_signed := true;
     size_t_bits := 32;
     sort := stable_sort;
     sort_permutes := stable_sort_permutes;
     sort_orders := stable_sort_orders |}.

(** A platform with unsigned [char] and 64-bit [size_t]. *)
Definition unsigned_char_platform : Platform :=
  {| char_is_signed := false;
     size_t_bits := 64;
     sort := stable_sort;
     sort_permutes := stable_sort_permutes;
     sort_orders := stable_sort_orders |}.

(** ** Notions of the specification

    The definitions below follow the words of the specification, not the
    code; the theorems relate the code to them. *)

(** The sum of the counts of a histogram. *)
Definition count_sum (h : list char_count_t) : Z :=
  fold_right (fun it acc => snd it + acc) 0 h.

(** The byte class table of the specification. *)
Definition utf8_class (ch : Z) : UTF8_State :=
  if ch =? 0 then UTF8_INVALID
  else if ch <=? 0x7F then UTF8_1
  else if ch <=? 0xBF then UTF8_TAIL
  else if ch <=? 0xC1 then UTF8_INVALID
  else if ch <=? 0xDF then UTF8_2
  else if ch <=? 0xEF then UTF8_3
  else if ch <=? 0xF4 then UTF8_4
  else UTF8_INVALID.

(** A per-byte violation of the conformance checker, the machine
    expecting [n] more continuation bytes ([n = 0]: expecting a single
    byte or a lead byte). *)
Definition violation (n : Z) (ch : Z) : bool :=
  match utf8_class ch with
  | UTF8_INVALID => true
  | UTF8_1 | UTF8_2 | UTF8_3 | UTF8_4 => negb (n =? 0)
  | UTF8_TAIL => n <=? 0
  end.

(** The continuation bytes expected after a byte that is no violation. *)
Definition expecting_after (n : Z) (ch : Z) : Z :=
  match utf8_class ch with
  | UTF8_2 => 1
  | UTF8_3 => 2
  | UTF8_4 => 3
  | UTF8_TAIL => n - 1
  | _ => n
  end.

Fixpoint no_violation (n : Z) (buffer : list byte) : bool :=
  match buffer with
  | [] => true
  | b :: r =>
      negb (violation n (uchar b)) &&
      no_violation (expecting_after n (uchar b)) r
  end.

(** The continuation bytes still expected at the end of a buffer. *)
Definition expecting_at_end (n : Z) (buffer : list byte) : Z :=
  fold_left (fun k b => expecting_after k (uchar b)) buffer n.

(** The digraph pairs consumed by the greedy pairing: a held byte pairs
    with the next byte whatever it is; an empty slot takes a byte that is
    at least 0x80. *)
Fixpoint consumed_pairs (pending : option Z) (buffer : list byte)
    : list (Z * Z) :=
  match buffer with
  | [] => []
  | b :: r =>
      match pending with
      | Some p => (p, uchar b) :: consumed_pairs None r
      | None =>
          if 0x80 <=? uchar b then consumed_pairs (Some (uchar b)) r
          else consumed_pairs None r
      end
  end.

(** A digraph as a 16-bit value, the first byte in the upper 8 bits. *)
Definition digraph (first second : Z) : Z := first * 256 + second.

Definition hi_hi (d : Z * Z) : bool := (0xa0 <? fst d) && (0xa0 <? snd d).

(** The pending slot that [last_ch] stands for. *)
Definition pending_of (last : Z) : option Z :=
  if last =? EOF then None else Some last.

(** Whether a NUL byte sits at an offset of the given parity, the first
    byte of the list being at offset [pos]. *)
Fixpoint nul_at_parity (odd : bool) (pos : Z) (buffer : list byte) : bool :=
  match buffer with
  | [] => false
  | b :: r =>
      ((uchar b =? 0) && Bool.eqb (Z.odd pos) odd) ||
      nul_at_parity odd (pos + 1) r
  end.

(** The two-bit accumulator for given answers to "a NUL at an odd
    offset?" and "a NUL at an even offset?". *)
Definition parity_bits (odd even : bool) : Z :=
  Z.lor (if odd then ODD else 0) (if even then EVEN else 0).

(** The accumulators that are locals of [tellenc]: the two histograms,
    the two digraph counters and the pending byte. *)
Definition histograms_of (s : scan_state)
    : list char_count_t * list char_count_t * Z * Z * Z :=
  (char_cnt s, mp_dbyte_char_cnt s, dbyte_cnt s, dbyte_hihi_cnt s, last_ch s).

(** Text bytes that leave every static untouched: 0x01-0x7E but 0x1A. *)
Definition plain_text (b : byte) : Prop :=
  1 <= uchar b <= 0x7E /\ uchar b <> 0x1A.

(** Histogram order of the specification: count descending, and equal
    counts in ascending key order. *)
Definition spec_order (a b : char_count_t) : Prop :=
  snd b < snd a \/ (snd b = snd a /\ fst a < fst b).

(** The labels [tellenc] can return, and the ones [main] can print. *)
Definition tellenc_labels : list string :=
  ["ucs-4"; "ucs-4le"; "utf-8"; "utf-16"; "utf-16le"; "ascii"; "latin1";
   "gb2312"; "gbk"; "big5"; "binary"].

Definition printed_labels : list string := tellenc_labels ++ ["unknown"].

(** * Properties *)

(** ** Bytes and the class table *)

Lemma uchar_range b : 0 <= uchar b < 256.
Proof.
  unfold uchar. pose proof (Byte.to_N_bounded b). lia.
Qed.

Lemma fresh_table_checked :
  forallb (fun i => Z.eqb (enum_value (nth i (utf8_char_table fresh) UTF8_INVALID))
                          (enum_value (utf8_class (Z.of_nat i))))
          (seq 0 256) = true.
Proof. vm_compute. reflexivity. Qed.

Lemma enum_value_inj a b : enum_value a = enum_value b -> a = b.
Proof. destruct a, b; simpl; intros H; try reflexivity; discriminate H. Qed.

(** [init_utf8_char_table] builds the table of the specification. *)
Lemma fresh_table ch :
  0 <= ch < 256 ->
  nth (Z.to_nat ch) (utf8_char_table fresh) UTF8_INVALID = utf8_class ch.
Proof.
  intros H. pose proof fresh_table_checked as T.
  rewrite forallb_forall in T.
  specialize (T (Z.to_nat ch)).
  rewrite Z2Nat.id in T by lia.
  apply enum_value_inj, Z.eqb_eq, T, in_seq. lia.
Qed.

(** The table is filled whatever the flags are, and the flags are kept. *)
Lemma init_utf8_char_table_flags g :
  is_binary (init_utf8_char_table g) = is_binary g /\
  is_utf8_conformant (init_utf8_char_table g) = is_utf8_conformant g /\
  nul_stat (init_utf8_char_table g) = nul_stat g.
Proof. repeat split. Qed.

(** ** The loop body, field by field *)

Section Step.
Variable P : Platform.

Lemma scan_step_last_ch s b :
  last_ch (scan_step P s b) =
  if negb (last_ch s =? EOF) then EOF
  else if 0x80 <=? uchar b then uchar b else last_ch s.
Proof.
  unfold scan_step. destruct (utf8_switch _ _ _ _).
  destruct (negb (last_ch s =? EOF)); reflexivity.
Qed.

Lemma scan_step_dbyte_cnt s b :
  dbyte_cnt (scan_step P s b) =
  if negb (last_ch s =? EOF) then dbyte_cnt s + 1 else dbyte_cnt s.
Proof.
  unfold scan_step. destruct (utf8_switch _ _ _ _).
  destruct (negb (last_ch s =? EOF)); reflexivity.
Qed.

Lemma scan_step_dbyte_hihi_cnt s b :
  dbyte_hihi_cnt (scan_step P s b) =
  if negb (last_ch s =? EOF) && hi_hi (last_ch s, uchar b)
  then dbyte_hihi_cnt s + 1 else dbyte_hihi_cnt s.
Proof.
  unfold scan_step, hi_hi. destruct (utf8_switch _ _ _ _). simpl.
  destruct (negb (last_ch s =? EOF)); reflexivity.
Qed.

Lemma scan_step_mp s b :
  mp_dbyte_char_cnt (scan_step P s b) =
  if negb (last_ch s =? EOF)
  then map_incr ((Z.shiftl (last_ch s) 8 + uchar b) mod 65536)
                (mp_dbyte_char_cnt s)
  else mp_dbyte_char_cnt s.
Proof.
  unfold scan_step. destruct (utf8_switch _ _ _ _).
  destruct (negb (last_ch s =? EOF)); reflexivity.
Qed.

Lemma scan_step_char_cnt s b :
  char_cnt (scan_step P s b) = incr_second (Z.to_nat (uchar b)) (char_cnt s).
Proof.
  unfold scan_step. destruct (utf8_switch _ _ _ _).
  destruct (negb (last_ch s =? EOF)); reflexivity.
Qed.

Lemma scan_step_offset s b : offset (scan_step P s b) = offset s + 1.
Proof.
  unfold scan_step. destruct (utf8_switch _ _ _ _).
  destruct (negb (last_ch s =? EOF)); reflexivity.
Qed.

Lemma scan_step_table s b :
  utf8_char_table (statics (scan_step P s b)) = utf8_char_table (statics s).
Proof.
  unfold scan_step. destruct (utf8_switch _ _ _ _).
  destruct (negb (last_ch s =? EOF)); reflexivity.
Qed.

Lemma scan_step_is_binary s b :
  is_binary (statics (scan_step P s b)) =
  is_non_text P (uchar b) || is_binary (statics s).
Proof.
  unfold scan_step. destruct (utf8_switch _ _ _ _).
  destruct (negb (last_ch s =? EOF)); simpl;
    destruct (is_non_text P (uchar b)); reflexivity.
Qed.

Lemma scan_step_nul_stat s b :
  nul_stat (statics (scan_step P s b)) =
  if is_non_text P (uchar b) && (uchar b =? NUL)
  then Z.lor (nul_stat (statics s)) (is_odd_even (offset s))
  else nul_stat (statics s).
Proof.
  unfold scan_step. destruct (utf8_switch _ _ _ _).
  destruct (negb (last_ch s =? EOF)); reflexivity.
Qed.

Lemma scan_step_utf8 s b :
  (is_utf8_conformant (statics (scan_step P s b)), utf8_state (scan_step P s b)) =
  utf8_switch (utf8_char_table (statics s)) (is_utf8_conformant (statics s))
              (utf8_state s) (uchar b).
Proof.
  unfold scan_step. destruct (utf8_switch _ _ _ _).
  destruct (negb (last_ch s =? EOF)); reflexivity.
Qed.

Lemma scan_from_cons s b r :
  scan_from P s (b :: r) = scan_from P (scan_step P s b) r.
Proof. reflexivity. Qed.

Lemma scan_from_app s b1 b2 :
  scan_from P s (b1 ++ b2) = scan_from P (scan_from P s b1) b2.
Proof. unfold scan_from. apply fold_left_app. Qed.

Lemma scan_app g b1 b2 :
  scan P g (b1 ++ b2) = scan_from P (scan P g b1) b2.
Proof. unfold scan. apply scan_from_app. Qed.

End Step.

(** ** Histograms *)

Lemma count_sum_cons x h : count_sum (x :: h) = snd x + count_sum h.
Proof. reflexivity. Qed.

Lemma count_sum_perm h1 h2 : Permutation h1 h2 -> count_sum h1 = count_sum h2.
Proof.
  induction 1; rewrite ?count_sum_cons; lia.
Qed.

Lemma incr_second_length i a : List.length (incr_second i a) = List.length a.
Proof.
  revert i. induction a as [|[k c] a IH]; intros [|i]; simpl; auto.
Qed.

Lemma incr_second_keys i a : map fst (incr_second i a) = map fst a.
Proof.
  revert i. induction a as [|[k c] a IH]; intros [|i]; simpl; auto.
  now rewrite IH.
Qed.

Lemma count_sum_incr_second i a :
  (i < List.length a)%nat -> count_sum (incr_second i a) = count_sum a + 1.
Proof.
  revert i. induction a as [|[k c] a IH]; intros [|i] H.
  - simpl in H. lia.
  - simpl in H. lia.
  - cbn [incr_second]. rewrite !count_sum_cons. simpl snd. lia.
  - cbn [incr_second]. rewrite !count_sum_cons, IH by (simpl in H; lia). lia.
Qed.

Lemma count_sum_map_incr k m : count_sum (map_incr k m) = count_sum m + 1.
Proof.
  induction m as [|[k' v] m IH]; cbn [map_incr].
  - reflexivity.
  - destruct (k <? k'); [rewrite !count_sum_cons; simpl snd; lia|].
    destruct (k =? k'); rewrite !count_sum_cons; simpl snd; lia.
Qed.

Lemma map_to_vector_id m : map_to_vector m = m.
Proof.
  unfold map_to_vector.
  enough (H : forall acc, fold_left (fun v it => v ++ [it]) m acc = acc ++ m)
    by apply (H []).
  induction m as [|x m IH]; intros acc; simpl.
  - now rewrite app_nil_r.
  - rewrite IH, <- app_assoc. reflexivity.
Qed.

Lemma init_char_count_length : List.length init_char_count = MAX_CHAR.
Proof. reflexivity. Qed.

Lemma init_char_count_sum : count_sum init_char_count = 0.
Proof. reflexivity. Qed.

(** The keys of a map stay in strictly ascending order. *)
Lemma map_incr_keys_lower k m lo :
  lo < k -> Forall (fun it => lo < fst it) m ->
  Forall (fun it => lo < fst it) (map_incr k m).
Proof.
  induction m as [|[k' v] m IH]; simpl; intros Hk Hm.
  - repeat constructor. exact Hk.
  - inversion Hm; subst.
    destruct (k <? k'); [constructor; [exact Hk|exact Hm]|].
    destruct (k =? k'); constructor; auto.
Qed.

Lemma map_incr_ascending k m :
  StronglySorted (fun a b => fst a < fst b) m ->
  StronglySorted (fun a b => fst a < fst b) (map_incr k m).
Proof.
  induction 1 as [|[k' v] m Hm IH Hk']; simpl.
  - repeat constructor.
  - destruct (k <? k') eqn:L.
    + apply Z.ltb_lt in L.
      constructor; [now constructor|].
      constructor; [exact L|].
      eapply Forall_impl; [|exact Hk']. simpl. intros; lia.
    + destruct (k =? k') eqn:E.
      * now constructor.
      * apply Z.ltb_ge in L. apply Z.eqb_neq in E.
        constructor; [exact IH|].
        apply (map_incr_keys_lower k m k'); [lia|exact Hk'].
Qed.

Section Scan.
Variable P : Platform.

Lemma scan_from_char_cnt_length s b :
  List.length (char_cnt (scan_from P s b)) = List.length (char_cnt s).
Proof.
  revert s. induction b as [|x b IH]; intros s; [reflexivity|].
  rewrite scan_from_cons, IH, scan_step_char_cnt. apply incr_second_length.
Qed.

Lemma scan_from_char_cnt_keys s b :
  map fst (char_cnt (scan_from P s b)) = map fst (char_cnt s).
Proof.
  revert s. induction b as [|x b IH]; intros s; [reflexivity|].
  rewrite scan_from_cons, IH, scan_step_char_cnt. apply incr_second_keys.
Qed.

Lemma scan_from_char_cnt_sum s b :
  List.length (char_cnt s) = MAX_CHAR ->
  count_sum (char_cnt (scan_from P s b)) =
  count_sum (char_cnt s) + Z.of_nat (List.length b).
Proof.
  revert s. induction b as [|x b IH]; intros s H; [simpl; lia|].
  rewrite scan_from_cons, IH.
  - rewrite scan_step_char_cnt, count_sum_incr_second.
    + simpl List.length. lia.
    + rewrite H. pose proof (uchar_range x). unfold MAX_CHAR. lia.
  - rewrite scan_step_char_cnt, incr_second_length. exact H.
Qed.

Lemma scan_from_mp_ascending s b :
  StronglySorted (fun a b => fst a < fst b) (mp_dbyte_char_cnt s) ->
  StronglySorted (fun a b => fst a < fst b)
                 (mp_dbyte_char_cnt (scan_from P s b)).
Proof.
  revert s. induction b as [|x b IH]; intros s H; [exact H|].
  rewrite scan_from_cons. apply IH. rewrite scan_step_mp.
  destruct (negb (last_ch s =? EOF)); [now apply map_incr_ascending|exact H].
Qed.

Lemma pending_of_EOF : pending_of EOF = None.
Proof. reflexivity. Qed.

Lemma pending_of_uchar x : pending_of (uchar x) = Some (uchar x).
Proof.
  unfold pending_of, EOF. pose proof (uchar_range x).
  destruct (uchar x =? -1) eqn:E; [apply Z.eqb_eq in E; lia|reflexivity].
Qed.

(** The counters against the pairs the specification speaks of. *)
Lemma scan_from_pairs s b :
  let pairs := consumed_pairs (pending_of (last_ch s)) b in
  let s' := scan_from P s b in
  dbyte_cnt s' = dbyte_cnt s + Z.of_nat (List.length pairs) /\
  dbyte_hihi_cnt s' =
    dbyte_hihi_cnt s + Z.of_nat (List.length (filter hi_hi pairs)) /\
  count_sum (mp_dbyte_char_cnt s') =
    count_sum (mp_dbyte_char_cnt s) + Z.of_nat (List.length pairs).
Proof.
  revert s. induction b as [|x b IH]; intros s.
  - simpl. repeat split; lia.
  - cbv zeta in *. rewrite scan_from_cons.
    destruct (IH (scan_step P s x)) as (ID & IH' & IM).
    rewrite ID, IH', IM. clear ID IH' IM IH.
    rewrite scan_step_last_ch, scan_step_dbyte_cnt, scan_step_dbyte_hihi_cnt,
      scan_step_mp.
    assert (Hp : pending_of (last_ch s) =
                 if last_ch s =? EOF then None else Some (last_ch s))
      by reflexivity.
    rewrite Hp. clear Hp. cbn [consumed_pairs].
    destruct (last_ch s =? EOF) eqn:E; cbn [negb andb].
    + destruct (0x80 <=? uchar x) eqn:H.
      * rewrite pending_of_uchar. repeat split; lia.
      * apply Z.eqb_eq in E. rewrite E, pending_of_EOF. repeat split; lia.
    + rewrite pending_of_EOF. cbn [filter].
      rewrite count_sum_map_incr.
      destruct (hi_hi (last_ch s, uchar x)); cbn [List.length];
        repeat split; lia.
Qed.

End Scan.

(** The same from the start of a buffer, where the slot is empty. *)
Lemma scan_pairs P g b :
  dbyte_cnt (scan P g b) = Z.of_nat (List.length (consumed_pairs None b)) /\
  dbyte_hihi_cnt (scan P g b) =
    Z.of_nat (List.length (filter hi_hi (consumed_pairs None b))) /\
  count_sum (mp_dbyte_char_cnt (scan P g b)) =
    Z.of_nat (List.length (consumed_pairs None b)).
Proof.
  pose proof (scan_from_pairs P (scan_init g) b) as HP.
  cbv zeta in HP. cbn [scan_init last_ch dbyte_cnt dbyte_hihi_cnt
    mp_dbyte_char_cnt] in HP. rewrite pending_of_EOF in HP.
  exact HP.
Qed.

(** Pairs do not overlap: two bytes each.  So no counter of [tellenc]
    exceeds [len], and incrementing a [size_t] counter never wraps. *)
Lemma consumed_pairs_length p b :
  (2 * List.length (consumed_pairs p b) <=
   List.length b + match p with Some _ => 1 | None => 0 end)%nat.
Proof.
  revert p. induction b as [|x b IH]; intros p; cbn [consumed_pairs].
  - destruct p; cbn; lia.
  - pose proof (IH None) as H0. pose proof (IH (Some (uchar x))) as H1.
    cbv beta iota in H0, H1.
    destruct p as [q|]; [|destruct (0x80 <=? uchar x)];
      cbn [List.length]; lia.
Qed.

Lemma dbyte_cnt_below_len P g b :
  0 <= 2 * dbyte_cnt (scan P g b) <= Z.of_nat (List.length b).
Proof.
  destruct (scan_pairs P g b) as (D & _). rewrite D.
  pose proof (consumed_pairs_length None b) as H. cbv beta iota in H. lia.
Qed.

Lemma filter_length_le {A} (f : A -> bool) l :
  (List.length (filter f l) <= List.length l)%nat.
Proof.
  induction l as [|x l IH]; simpl; [lia|].
  destruct (f x); simpl; lia.
Qed.

Lemma filter_length_all {A} (f : A -> bool) l :
  List.length (filter f l) = List.length l <-> Forall (fun x => f x = true) l.
Proof.
  induction l as [|x l IH]; simpl.
  - split; [constructor|reflexivity].
  - pose proof (filter_length_le f l) as L.
    destruct (f x) eqn:E; simpl; split; intros H.
    + constructor; [exact E|]. apply IH. lia.
    + inversion H; subst. f_equal. now apply IH.
    + lia.
    + inversion H; subst. congruence.
Qed.

Lemma size_t_wrap_bounds P x : 0 <= x -> 0 <= size_t_wrap P x <= x.
Proof.
  intros H. unfold size_t_wrap.
  assert (0 < 2 ^ Z.of_N (size_t_bits P)) by (apply Z.pow_pos_nonneg; lia).
  split; [apply Z.mod_pos_bound; lia|apply Z.mod_le; lia].
Qed.

(** ** C8: what the histograms add up to *)

(** C8.  For every buffer, when the scan is over the byte histogram has
    its 256 entries, keyed 0 to 255, and its counts add up to the length
    of the buffer; the counts of the digraph histogram add up to
    [dbyte_cnt], which is the number of digraph pairs consumed.  Sorting
    does not change either sum. *)
Theorem C8_histogram_sums (P : Platform) (g : globals) (buffer : list byte) :
  let s := scan P g buffer in
  map fst (char_cnt s) = map Z.of_nat (seq 0 256) /\
  count_sum (char_cnt s) = Z.of_nat (List.length buffer) /\
  count_sum (sorted_char_cnt P s) = Z.of_nat (List.length buffer) /\
  count_sum (mp_dbyte_char_cnt s) = dbyte_cnt s /\
  count_sum (sorted_dbyte_char_cnt P s) = dbyte_cnt s /\
  dbyte_cnt s = Z.of_nat (List.length (consumed_pairs None buffer)).
Proof.
  intros s. subst s.
  destruct (scan_pairs P g buffer) as (HD & _ & HM).
  assert (HS : count_sum (char_cnt (scan P g buffer)) =
               Z.of_nat (List.length buffer)).
  { unfold scan. rewrite scan_from_char_cnt_sum by reflexivity. reflexivity. }
  repeat split.
  - unfold scan. rewrite scan_from_char_cnt_keys.
    unfold scan_init, init_char_count.
    cbn [char_cnt]. rewrite map_map. reflexivity.
  - exact HS.
  - unfold sorted_char_cnt. rewrite <- HS.
    symmetry. apply count_sum_perm, sort_permutes.
  - rewrite HM, HD. reflexivity.
  - unfold sorted_dbyte_char_cnt. rewrite map_to_vector_id.
    rewrite <- (count_sum_perm _ _ (sort_permutes P _)).
    rewrite HM, HD. reflexivity.
  - rewrite HD. reflexivity.
Qed.

(** ** C10: hi-hi digraphs against all digraphs *)

(** C10.  For every buffer the hi-hi count never exceeds the digraph
    count; when the digraph count is positive the quotient of the latin1
    test lies between 0 and 100 (whatever the width of [size_t]); and the
    two counts are equal exactly when every consumed digraph has both
    bytes above 0xA0. *)
Theorem C10_hihi_bounded (P : Platform) (g : globals) (buffer : list byte) :
  let s := scan P g buffer in
  0 <= dbyte_hihi_cnt s <= dbyte_cnt s /\
  (0 < dbyte_cnt s ->
   0 <= size_t_wrap P (dbyte_hihi_cnt s * 100) / dbyte_cnt s <= 100) /\
  (dbyte_hihi_cnt s = dbyte_cnt s <->
   Forall (fun d => hi_hi d = true) (consumed_pairs None buffer)).
Proof.
  intros s. subst s.
  destruct (scan_pairs P g buffer) as (HD & HH & _).
  rewrite HD, HH.
  pose proof (filter_length_le hi_hi (consumed_pairs None buffer)) as L.
  split; [lia|]. split.
  - intros Hpos.
    pose proof (size_t_wrap_bounds P
      (Z.of_nat (List.length (filter hi_hi (consumed_pairs None buffer)))
       * 100)) as W.
    split.
    + apply Z.div_pos; lia.
    + apply Z.div_le_upper_bound; lia.
  - rewrite <- filter_length_all. lia.
Qed.

Lemma C10_witness :
  0 <= size_t_wrap stable_platform
         (dbyte_hihi_cnt (scan stable_platform fresh [xb0; xb1; xb0; x41]) * 100)
       / dbyte_cnt (scan stable_platform fresh [xb0; xb1; xb0; x41]) <= 100.
Proof.
  apply (proj1 (proj2 (C10_hihi_bounded stable_platform fresh
                         [xb0; xb1; xb0; x41]))).
  vm_compute. reflexivity.
Defined.

(** ** C7: greedy, non-overlapping pairing *)

Lemma dbyte_char_digraph p ch :
  0 <= p < 256 -> 0 <= ch < 256 ->
  (Z.shiftl p 8 + ch) mod 65536 = digraph p ch.
Proof.
  intros Hp Hc. unfold digraph. rewrite Z.shiftl_mul_pow2 by lia.
  change (2 ^ 8) with 256. apply Z.mod_small. lia.
Qed.

Lemma scan_snoc P g pre x :
  scan P g (pre ++ [x]) = scan_step P (scan P g pre) x.
Proof. rewrite scan_app. reflexivity. Qed.

(** After a byte below 0x80 the pending slot is empty. *)
Lemma last_ch_after_low P s x :
  uchar x < 0x80 -> last_ch (scan_step P s x) = EOF.
Proof.
  intros H. rewrite scan_step_last_ch.
  destruct (last_ch s =? EOF) eqn:E; cbn [negb]; [|reflexivity].
  destruct (0x80 <=? uchar x) eqn:L; [apply Z.leb_le in L; lia|].
  now apply Z.eqb_eq.
Qed.

(** The pending slot is empty or holds a byte of 0x80 or more. *)
Lemma scan_last_ch_range P g pre :
  last_ch (scan P g pre) = EOF \/ 0x80 <= last_ch (scan P g pre) < 256.
Proof.
  induction pre as [|x pre IH] using rev_ind; [now left|].
  rewrite scan_snoc, scan_step_last_ch.
  destruct (negb _); [now left|].
  destruct (0x80 <=? uchar x) eqn:L; [|exact IH].
  right. apply Z.leb_le in L. pose proof (uchar_range x). lia.
Qed.

(** C7, as the code has it.  The pending slot holds a byte after a step
    exactly when it was empty and the byte read is at least 0x80 (and it
    then holds that byte).  A held byte is consumed by the next byte,
    whatever that byte is: one digraph is counted and the slot is
    cleared; with an empty slot no digraph is counted.  Hence three
    consecutive bytes [a], [b], [c] of 0x80 or more never give two
    overlapping digraphs.  Met with an empty slot (at the start of a
    buffer, after a byte below 0x80 or after a completed digraph) they
    give the one digraph [(a, b)], and [c] is left pending.  Met with a
    held byte [p] they give [(p, a)] and then [(b, c)], not [(a, b)].  In
    any state, two bytes in a row never both complete a digraph. *)
Theorem C7_greedy_pairing :
  (forall P s x,
     (last_ch (scan_step P s x) <> EOF <->
      last_ch s = EOF /\ 0x80 <= uchar x) /\
     (last_ch (scan_step P s x) = EOF \/
      last_ch (scan_step P s x) = uchar x)) /\
  (forall P s x,
     (last_ch s <> EOF ->
      last_ch (scan_step P s x) = EOF /\
      dbyte_cnt (scan_step P s x) = dbyte_cnt s + 1 /\
      mp_dbyte_char_cnt (scan_step P s x) =
        map_incr ((Z.shiftl (last_ch s) 8 + uchar x) mod 65536)
                 (mp_dbyte_char_cnt s)) /\
     (last_ch s = EOF ->
      dbyte_cnt (scan_step P s x) = dbyte_cnt s /\
      mp_dbyte_char_cnt (scan_step P s x) = mp_dbyte_char_cnt s)) /\
  (forall P g pre a b c,
     last_ch (scan P g pre) = EOF ->
     0x80 <= uchar a -> 0x80 <= uchar c ->
     let s0 := scan P g pre in
     let s3 := scan P g (pre ++ [a; b; c]) in
     dbyte_cnt s3 = dbyte_cnt s0 + 1 /\
     mp_dbyte_char_cnt s3 =
       map_incr (digraph (uchar a) (uchar b)) (mp_dbyte_char_cnt s0) /\
     last_ch s3 = uchar c /\
     consumed_pairs None [a; b; c] = [(uchar a, uchar b)]) /\
  (forall P g pre lo,
     last_ch (scan P g []) = EOF /\
     (uchar lo < 0x80 -> last_ch (scan P g (pre ++ [lo])) = EOF)) /\
  (forall P s x y,
     dbyte_cnt (scan_step P (scan_step P s x) y) <= dbyte_cnt s + 1) /\
  (forall P g pre a b c,
     last_ch (scan P g pre) <> EOF ->
     0x80 <= uchar b ->
     let s0 := scan P g pre in
     let s3 := scan P g (pre ++ [a; b; c]) in
     dbyte_cnt s3 = dbyte_cnt s0 + 2 /\
     mp_dbyte_char_cnt s3 =
       map_incr (digraph (uchar b) (uchar c))
         (map_incr (digraph (last_ch s0) (uchar a))
                   (mp_dbyte_char_cnt s0)) /\
     last_ch s3 = EOF /\
     consumed_pairs (Some (last_ch s0)) [a; b; c] =
       [(last_ch s0, uchar a); (uchar b, uchar c)]).
Proof.
  split; [|split; [|split; [|split; [|split]]]].
  - intros P s x. rewrite scan_step_last_ch.
    pose proof (uchar_range x) as R. unfold EOF in *.
    destruct (last_ch s =? -1) eqn:E; cbn [negb].
    + apply Z.eqb_eq in E.
      destruct (0x80 <=? uchar x) eqn:L.
      * apply Z.leb_le in L. split; [split; [intros _; lia|intros _; lia]|].
        now right.
      * apply Z.leb_gt in L. split; [split; [intros H; lia|intros [_ H]; lia]|].
        now left.
    + apply Z.eqb_neq in E.
      split; [split; [intros H; now elim H|intros [H _]; lia]|now left].
  - intros P s x.
    rewrite scan_step_last_ch, scan_step_dbyte_cnt, scan_step_mp.
    split; intros H.
    + apply Z.eqb_neq in H. rewrite H. cbn [negb]. repeat split.
    + apply Z.eqb_eq in H. rewrite H. cbn [negb]. repeat split.
  - intros P g pre a b c E Ha Hc s0 s3. subst s0 s3.
    pose proof (uchar_range a) as Ra. pose proof (uchar_range b) as Rb.
    pose proof (uchar_range c) as Rc.
    change (pre ++ [a; b; c]) with (pre ++ [a] ++ [b] ++ [c]).
    rewrite !app_assoc, !scan_snoc.
    set (s0 := scan P g pre) in *.
    assert (L1 : last_ch (scan_step P s0 a) = uchar a).
    { rewrite scan_step_last_ch, E. cbn.
      apply Z.leb_le in Ha. now rewrite Ha. }
    assert (N1 : (last_ch (scan_step P s0 a) =? EOF) = false).
    { rewrite L1. apply Z.eqb_neq. unfold EOF. lia. }
    assert (L2 : last_ch (scan_step P (scan_step P s0 a) b) = EOF).
    { rewrite scan_step_last_ch, N1. reflexivity. }
    repeat rewrite ?scan_step_last_ch, ?scan_step_dbyte_cnt, ?scan_step_mp.
    rewrite E. cbn [negb]. change (EOF =? EOF) with true. cbn [negb].
    apply Z.leb_le in Ha, Hc. rewrite Ha, Hc.
    assert (N : (uchar a =? EOF) = false)
      by (apply Z.eqb_neq; unfold EOF; apply Z.leb_le in Ha; lia).
    rewrite !N. cbn [negb]. change (EOF =? EOF) with true. cbn [negb].
    rewrite dbyte_char_digraph by assumption.
    repeat split.
    cbn [consumed_pairs]. rewrite Ha. cbn [consumed_pairs].
    destruct (0x80 <=? uchar c); reflexivity.
  - intros P g pre lo. split; [reflexivity|].
    intros H. rewrite scan_snoc. now apply last_ch_after_low.
  - intros P s x y.
    rewrite !scan_step_dbyte_cnt, scan_step_last_ch.
    destruct (last_ch s =? EOF) eqn:E; cbn [negb].
    + destruct (negb _); lia.
    + change (EOF =? EOF) with true. cbn [negb]. lia.
  - intros P g pre a b c E Hb s0 s3. subst s0 s3.
    pose proof (uchar_range a) as Ra.
    pose proof (uchar_range b) as Rb. pose proof (uchar_range c) as Rc.
    assert (R0 : 0 <= last_ch (scan P g pre) < 256)
      by (destruct (scan_last_ch_range P g pre); [contradiction|lia]).
    change (pre ++ [a; b; c]) with (pre ++ [a] ++ [b] ++ [c]).
    rewrite !app_assoc, !scan_snoc.
    set (s0 := scan P g pre) in *.
    apply Z.eqb_neq in E. apply Z.leb_le in Hb.
    assert (N : (uchar b =? EOF) = false)
      by (apply Z.eqb_neq; unfold EOF; lia).
    repeat rewrite ?scan_step_last_ch, ?scan_step_dbyte_cnt, ?scan_step_mp.
    rewrite E. cbn [negb]. change (EOF =? EOF) with true. cbn [negb].
    rewrite Hb, N. cbn [negb].
    rewrite (dbyte_char_digraph (uchar b) (uchar c)) by assumption.
    rewrite (dbyte_char_digraph (last_ch s0) (uchar a)) by assumption.
    repeat split; try lia.
    cbn [consumed_pairs]. rewrite Hb. reflexivity.
Qed.

Lemma C7_witness :
  dbyte_cnt (scan stable_platform fresh ([x41] ++ [xe4; xb8; xad])) =
    dbyte_cnt (scan stable_platform fresh [x41]) + 1 /\
  mp_dbyte_char_cnt (scan stable_platform fresh ([x41] ++ [xe4; xb8; xad])) =
    map_incr (digraph (uchar xe4) (uchar xb8))
             (mp_dbyte_char_cnt (scan stable_platform fresh [x41])) /\
  last_ch (scan stable_platform fresh ([x41] ++ [xe4; xb8; xad])) = uchar xad /\
  consumed_pairs None [xe4; xb8; xad] = [(uchar xe4, uchar xb8)].
Proof.
  apply (proj1 (proj2 (proj2 C7_greedy_pairing))
           stable_platform fresh [x41] xe4 xb8 xad).
  - reflexivity.
  - vm_compute. discriminate.
  - vm_compute. discriminate.
Defined.

(** In 80 81 82 83 the three bytes 81 82 83 are consecutive and at least
    0x80; 81 pairs with the held 80, and the one digraph made of two of
    them is 8283, their last two. *)
Lemma C7_counterexample :
  consumed_pairs None [x80; x81; x82; x83] = [(0x80, 0x81); (0x82, 0x83)] /\
  mp_dbyte_char_cnt (scan stable_platform fresh [x80; x81; x82; x83])
    = [(0x8081, 1); (0x8283, 1)] /\
  dbyte_cnt (scan stable_platform fresh [x80; x81; x82; x83]) = 2.
Proof. repeat split; vm_compute; reflexivity. Qed.

(** ** C5: the conformance checker and truncated sequences *)

(** Once cleared, the flag stays cleared. *)
Lemma utf8_switch_sticky tbl state ch :
  utf8_switch tbl false state ch = (false, state).
Proof. reflexivity. Qed.

(** The [switch] against the per-byte violations of the specification,
    the state being one more than the continuation bytes expected. *)
Lemma utf8_switch_spec n ch :
  0 <= ch < 256 ->
  utf8_switch (utf8_char_table fresh) true (n + 1) ch =
  if violation n ch then (false, n + 1)
  else (true, expecting_after n ch + 1).
Proof.
  intros R. unfold utf8_switch, violation, expecting_after.
  rewrite (fresh_table ch R).
  destruct (utf8_class ch); cbn [enum_value].
  - reflexivity.
  - destruct (n =? 0) eqn:E; [apply Z.eqb_eq in E|apply Z.eqb_neq in E].
    + subst n. reflexivity.
    + replace (n + 1 =? 1) with false by (symmetry; apply Z.eqb_neq; lia).
      reflexivity.
  - destruct (n =? 0) eqn:E; [apply Z.eqb_eq in E|apply Z.eqb_neq in E].
    + subst n. reflexivity.
    + replace (n + 1 =? 1) with false by (symmetry; apply Z.eqb_neq; lia).
      reflexivity.
  - destruct (n =? 0) eqn:E; [apply Z.eqb_eq in E|apply Z.eqb_neq in E].
    + subst n. reflexivity.
    + replace (n + 1 =? 1) with false by (symmetry; apply Z.eqb_neq; lia).
      reflexivity.
  - destruct (n =? 0) eqn:E; [apply Z.eqb_eq in E|apply Z.eqb_neq in E].
    + subst n. reflexivity.
    + replace (n + 1 =? 1) with false by (symmetry; apply Z.eqb_neq; lia).
      reflexivity.
  - destruct (n <=? 0) eqn:E; [apply Z.leb_le in E|apply Z.leb_gt in E].
    + replace (1 <? n + 1) with false by (symmetry; apply Z.ltb_ge; lia).
      reflexivity.
    + replace (1 <? n + 1) with true by (symmetry; apply Z.ltb_lt; lia).
      f_equal. lia.
Qed.

Section Conformance.
Variable P : Platform.

Lemma scan_from_table s b :
  utf8_char_table (statics (scan_from P s b)) = utf8_char_table (statics s).
Proof.
  revert s. induction b as [|x b IH]; intros s; [reflexivity|].
  rewrite scan_from_cons, IH. apply scan_step_table.
Qed.

Lemma scan_from_nonconformant s b :
  is_utf8_conformant (statics s) = false ->
  is_utf8_conformant (statics (scan_from P s b)) = false.
Proof.
  revert s. induction b as [|x b IH]; intros s H; [exact H|].
  rewrite scan_from_cons. apply IH.
  pose proof (scan_step_utf8 P s x) as U.
  rewrite H, utf8_switch_sticky in U. now inversion U.
Qed.

(** The flag after the scan is the absence of per-byte violations, and
    nothing else: the state the buffer ends in plays no part. *)
Lemma scan_from_conformant s b n :
  utf8_char_table (statics s) = utf8_char_table fresh ->
  is_utf8_conformant (statics s) = true ->
  utf8_state s = n + 1 ->
  is_utf8_conformant (statics (scan_from P s b)) = no_violation n b /\
  (no_violation n b = true ->
   utf8_state (scan_from P s b) = expecting_at_end n b + 1).
Proof.
  revert s n. induction b as [|x b IH]; intros s n T C S.
  - split; [exact C|intros _; exact S].
  - rewrite scan_from_cons. cbn [no_violation].
    change (expecting_at_end n (x :: b))
      with (expecting_at_end (expecting_after n (uchar x)) b).
    pose proof (scan_step_utf8 P s x) as U.
    rewrite T, C, S, (utf8_switch_spec n _ (uchar_range x)) in U.
    destruct (violation n (uchar x)) eqn:V; injection U as U1 U2;
      cbn [negb andb].
    + split; [|discriminate].
      now apply scan_from_nonconformant.
    + apply IH; [|exact U1|exact U2].
      rewrite scan_step_table. exact T.
Qed.

End Conformance.

Lemma no_violation_app n b1 b2 :
  no_violation n (b1 ++ b2) = true -> no_violation n b1 = true.
Proof.
  revert n. induction b1 as [|x b1 IH]; intros n; [reflexivity|].
  cbn [app no_violation]. rewrite !andb_true_iff.
  intros [V H]. split; [exact V|]. now apply IH.
Qed.

(** C5.  Let the table be filled and the flag be set when the scan
    starts.  If a buffer goes through the checker without a per-byte
    violation, then cutting it short anywhere, also in the middle of a
    multi-byte sequence, leaves the flag set: after scanning the part
    [buffer] of [buffer ++ rest] the flag is true, whatever number of
    continuation bytes [utf8_state] still expects at that point. *)
Theorem C5_truncation_not_flagged (P : Platform) (g : globals)
    (buffer rest : list byte) :
  utf8_char_table g = utf8_char_table fresh ->
  is_utf8_conformant g = true ->
  no_violation 0 (buffer ++ rest) = true ->
  is_utf8_conformant (statics (scan P g buffer)) = true /\
  utf8_state (scan P g buffer) =
    enum_value UTF8_1 + expecting_at_end 0 buffer.
Proof.
  intros T C V. apply no_violation_app in V.
  destruct (scan_from_conformant P (scan_init g) buffer 0 T C eq_refl)
    as [F S].
  unfold scan. rewrite F, (S V). split; [exact V|]. cbn [enum_value]. lia.
Qed.

(** A buffer that ends after the first two bytes of a three-byte
    sequence: the state is [UTF8_2], one continuation byte short, and the
    flag is set. *)
Lemma C5_witness :
  is_utf8_conformant (statics (scan stable_platform fresh [x68; xe4; xb8]))
    = true /\
  utf8_state (scan stable_platform fresh [x68; xe4; xb8]) =
    enum_value UTF8_1 + expecting_at_end 0 [x68; xe4; xb8].
Proof.
  apply (C5_truncation_not_flagged stable_platform fresh
           [x68; xe4; xb8] [xad]); reflexivity.
Defined.

(** ** The BOM detector *)

Lemma byte_eqb_neq x y : x <> y -> Byte.eqb x y = false.
Proof.
  intros N. destruct (Byte.eqb x y) eqn:E; [|reflexivity].
  elim N. now apply Byte.byte_dec_bl.
Qed.

(** No pattern starts with a byte other than 00, EF, FE and FF. *)
Lemma check_ucs_bom_first x r :
  x <> x00 -> x <> xff -> x <> xef -> x <> xfe ->
  check_ucs_bom (x :: r) = None.
Proof.
  intros N0 Nff Nef Nfe.
  unfold check_ucs_bom, patterns, memcmp_eq.
  cbn [find pattern pattern_len firstn bytes_eqb].
  rewrite (byte_eqb_neq _ _ N0), (byte_eqb_neq _ _ Nff),
    (byte_eqb_neq _ _ Nef), (byte_eqb_neq _ _ Nfe).
  reflexivity.
Qed.

Lemma check_ucs_bom_labels b l :
  check_ucs_bom b = Some l -> In l tellenc_labels.
Proof.
  unfold check_ucs_bom, patterns. cbn [find pattern pattern_len].
  repeat match goal with
         | |- context [if ?c then _ else _] => destruct c
         end;
    cbn [option_map name]; intros H; inversion H; subst;
    unfold tellenc_labels; cbn [In]; tauto.
Qed.

(** With at most four bytes, or without a BOM, [tellenc] is the scan
    followed by the decision. *)
Lemma tellenc_scanned P g b :
  (List.length b <= 4)%nat \/ check_ucs_bom b = None ->
  tellenc P g b = (statics (scan P g b), verdict P (scan P g b)).
Proof.
  intros H. unfold tellenc.
  destruct (4 <? List.length b)%nat eqn:L.
  - destruct H as [H|H]; [apply Nat.ltb_lt in L; lia|].
    rewrite H. reflexivity.
  - reflexivity.
Qed.

(** ** C9: text of bytes 0x01-0x7F *)

Lemma ascii_no_violation b :
  Forall (fun x => 1 <= uchar x <= 0x7F) b -> no_violation 0 b = true.
Proof.
  induction 1 as [|x b Hx Hb IH]; [reflexivity|].
  cbn [no_violation]. unfold violation, expecting_after, utf8_class.
  replace (uchar x =? 0) with false by (symmetry; apply Z.eqb_neq; lia).
  replace (uchar x <=? 0x7F) with true by (symmetry; apply Z.leb_le; lia).
  exact IH.
Qed.

Lemma low_bytes_no_pairs b :
  Forall (fun x => uchar x < 0x80) b -> consumed_pairs None b = [].
Proof.
  induction 1 as [|x b Hx Hb IH]; [reflexivity|].
  cbn [consumed_pairs].
  replace (0x80 <=? uchar x) with false by (symmetry; apply Z.leb_gt; lia).
  exact IH.
Qed.

Lemma ascii_no_bom b :
  Forall (fun x => 1 <= uchar x <= 0x7F) b -> check_ucs_bom b = None.
Proof.
  intros [|x r Hx _]; [reflexivity|].
  apply check_ucs_bom_first; intros ->; vm_compute in Hx;
    destruct Hx as [H1 H2]; (now elim H1) || (now elim H2).
Qed.

(** C9.  Started with the statics as [main] hands them over, [tellenc]
    returns "ascii" for every buffer whose bytes all lie in 0x01-0x7F,
    the empty buffer included, on every platform. *)
Theorem C9_ascii (P : Platform) (buffer : list byte) :
  Forall (fun x => 1 <= uchar x <= 0x7F) buffer ->
  snd (tellenc P fresh buffer) = Some "ascii".
Proof.
  intros H.
  rewrite tellenc_scanned by (right; now apply ascii_no_bom).
  cbn [snd]. unfold verdict.
  destruct (scan_from_conformant P (scan_init fresh) buffer 0
              eq_refl eq_refl eq_refl) as [C _].
  fold (scan P fresh buffer) in C.
  rewrite C, (ascii_no_violation buffer H). cbn [negb andb].
  destruct (scan_pairs P fresh buffer) as (D & _).
  rewrite D, low_bytes_no_pairs; [reflexivity|].
  eapply Forall_impl; [|exact H]. cbn beta. intros; lia.
Qed.

Lemma C9_witness : snd (tellenc stable_platform fresh [x68; x69; x1a; x7f])
                   = Some "ascii".
Proof.
  apply C9_ascii. repeat constructor; vm_compute; discriminate.
Defined.

(** ** C6: the NUL parity rule *)

Lemma is_non_text_NUL P : is_non_text P 0 = true.
Proof. unfold is_non_text, char_of_uchar. cbn. now rewrite andb_false_r. Qed.

Lemma is_odd_even_parity pos :
  is_odd_even pos = if Z.odd pos then ODD else EVEN.
Proof.
  unfold is_odd_even.
  change 1 with (Z.ones 1). rewrite Z.land_ones by lia.
  change (2 ^ 1) with 2. rewrite Zmod_odd.
  destruct (Z.odd pos); reflexivity.
Qed.

Lemma parity_bits_lor n o1 e1 o2 e2 :
  Z.lor (Z.lor n (parity_bits o1 e1)) (parity_bits o2 e2) =
  Z.lor n (parity_bits (o1 || o2) (e1 || e2)).
Proof.
  rewrite <- Z.lor_assoc. f_equal.
  destruct o1, e1, o2, e2; reflexivity.
Qed.

Lemma scan_from_nul_stat P s b :
  nul_stat (statics (scan_from P s b)) =
  Z.lor (nul_stat (statics s))
        (parity_bits (nul_at_parity true (offset s) b)
                     (nul_at_parity false (offset s) b)).
Proof.
  revert s. induction b as [|x b IH]; intros s.
  - cbn. now rewrite Z.lor_0_r.
  - rewrite scan_from_cons, IH, scan_step_nul_stat, scan_step_offset.
    cbn [nul_at_parity]. unfold NUL.
    destruct (uchar x =? 0) eqn:E.
    + apply Z.eqb_eq in E. rewrite E, is_non_text_NUL, is_odd_even_parity.
      cbn [andb].
      replace (if Z.odd (offset s) then ODD else EVEN)
        with (parity_bits (Bool.eqb (Z.odd (offset s)) true)
                          (Bool.eqb (Z.odd (offset s)) false))
        by (destruct (Z.odd (offset s)); reflexivity).
      apply parity_bits_lor.
    + rewrite andb_false_r. reflexivity.
Qed.

(** C6.  When the decision is reached with the conformance flag cleared
    and the binary flag set, the label is read off [nul_stat] alone:
    [ODD] gives "utf-16le", [EVEN] gives "utf-16", and no bit or both
    bits give "binary".  Started from zero, [nul_stat] has the [ODD] bit
    exactly when a NUL byte sits at an odd offset and the [EVEN] bit
    exactly when one sits at an even offset.  [tellenc] reaches the
    decision for every buffer of at most four bytes or without a BOM, and
    on every platform it returns "utf-16le" for FF 00 FF 00. *)
Theorem C6_nul_parity_rule :
  (forall P s,
     is_utf8_conformant (statics s) = false ->
     is_binary (statics s) = true ->
     (nul_stat (statics s) = ODD -> verdict P s = Some "utf-16le") /\
     (nul_stat (statics s) = EVEN -> verdict P s = Some "utf-16") /\
     (nul_stat (statics s) = 0 \/ nul_stat (statics s) = Z.lor ODD EVEN ->
      verdict P s = Some "binary")) /\
  (forall P g b,
     nul_stat g = 0 ->
     nul_stat (statics (scan P g b)) =
     parity_bits (nul_at_parity true 0 b) (nul_at_parity false 0 b)) /\
  (forall P g b,
     (List.length b <= 4)%nat \/ check_ucs_bom b = None ->
     snd (tellenc P g b) = verdict P (scan P g b)) /\
  (forall P, snd (tellenc P fresh [xff; x00; xff; x00]) = Some "utf-16le").
Proof.
  split; [|split; [|split]].
  - intros P s C B. unfold verdict. rewrite C, B. cbn [negb andb].
    split; [|split].
    + intros ->. reflexivity.
    + intros ->. reflexivity.
    + intros [-> | ->]; reflexivity.
  - intros P g b H. unfold scan. rewrite scan_from_nul_stat.
    cbn [scan_init statics offset]. rewrite H. apply Z.lor_0_l.
  - intros P g b H. rewrite tellenc_scanned by exact H. reflexivity.
  - intros [[|] bits srt Hp Ho]; vm_compute; reflexivity.
Qed.

Lemma C6_witness :
  verdict stable_platform (scan stable_platform fresh [x00; x41; x00; xc0])
  = Some "utf-16".
Proof.
  apply (proj1 C6_nul_parity_rule stable_platform
           (scan stable_platform fresh [x00; x41; x00; xc0]));
    reflexivity.
Defined.

(** ** C1: the UTF-8 byte order mark *)

(** C1, as the code has it.  For every buffer of more than four bytes that begins
    with EF BB BF, [tellenc] returns "utf-8" whatever the remaining bytes
    and whatever the statics are, and leaves the statics untouched.  A
    buffer of at most four bytes is not searched for a BOM: it goes
    through the scan and the decision like any other. *)
Theorem C1_utf8_bom :
  (forall P g rest,
     (2 <= List.length rest)%nat ->
     tellenc P g (xef :: xbb :: xbf :: rest) = (g, Some "utf-8")) /\
  (forall P g b,
     (List.length b <= 4)%nat ->
     tellenc P g b = (statics (scan P g b), verdict P (scan P g b))).
Proof.
  split.
  - intros P g rest H.
    destruct rest as [|r1 [|r2 rest]]; cbn [List.length] in H; try lia.
    reflexivity.
  - intros P g b H. apply tellenc_scanned. now left.
Qed.

Lemma C1_witness :
  tellenc stable_platform fresh [xef; xbb; xbf; x00; x00]
  = (fresh, Some "utf-8").
Proof.
  apply (proj1 C1_utf8_bom stable_platform fresh [x00; x00]). cbn. lia.
Defined.

(** With four bytes the BOM is not looked at: EF BB BF 00 is scanned, and
    the NUL at offset 3 makes it "utf-16le". *)
Lemma C1_counterexample :
  snd (tellenc stable_platform fresh [xef; xbb; xbf; x00]) = Some "utf-16le".
Proof. vm_compute. reflexivity. Qed.

(** The three bytes of the BOM alone are scanned too, and are UTF-8 by
    the decision, not by the BOM detector. *)
Lemma bom_alone P : snd (tellenc P fresh [xef; xbb; xbf]) = Some "utf-8".
Proof. destruct P as [[|] bits srt Hp Ho]; vm_compute; reflexivity. Qed.

(** ** C2: what a call leaves behind *)

Lemma globals_eq g g' :
  utf8_char_table g = utf8_char_table g' ->
  is_binary g = is_binary g' ->
  is_utf8_conformant g = is_utf8_conformant g' ->
  nul_stat g = nul_stat g' ->
  g = g'.
Proof. destruct g, g'; cbn; intros; subst; reflexivity. Qed.

Section Persistence.
Variable P : Platform.

Lemma scan_from_is_binary s b :
  is_binary (statics (scan_from P s b)) =
  is_binary (statics s) || existsb (fun x => is_non_text P (uchar x)) b.
Proof.
  revert s. induction b as [|x b IH]; intros s.
  - cbn. now rewrite orb_false_r.
  - rewrite scan_from_cons, IH, scan_step_is_binary. cbn [existsb].
    destruct (is_non_text P (uchar x)), (is_binary (statics s)); reflexivity.
Qed.

(** The checker is a function of the table, the flag and the state. *)
Lemma scan_from_utf8_det s s' b :
  utf8_char_table (statics s) = utf8_char_table (statics s') ->
  is_utf8_conformant (statics s) = is_utf8_conformant (statics s') ->
  utf8_state s = utf8_state s' ->
  is_utf8_conformant (statics (scan_from P s b)) =
  is_utf8_conformant (statics (scan_from P s' b)).
Proof.
  revert s s'. induction b as [|x b IH]; intros s s' T C S; [exact C|].
  rewrite !scan_from_cons.
  pose proof (scan_step_utf8 P s x) as U.
  pose proof (scan_step_utf8 P s' x) as U'.
  rewrite T, C, S, <- U' in U. injection U as U1 U2.
  apply IH; [|exact U1|exact U2].
  rewrite !scan_step_table. exact T.
Qed.

(** The locals do not depend on the statics. *)
Lemma scan_from_histograms s s' b :
  histograms_of s = histograms_of s' ->
  histograms_of (scan_from P s b) = histograms_of (scan_from P s' b).
Proof.
  revert s s'. induction b as [|x b IH]; intros s s' H; [exact H|].
  rewrite !scan_from_cons. apply IH.
  unfold histograms_of in *. injection H as H1 H2 H3 H4 H5.
  rewrite !scan_step_char_cnt, !scan_step_mp, !scan_step_dbyte_cnt,
    !scan_step_dbyte_hihi_cnt, !scan_step_last_ch.
  rewrite H1, H2, H3, H4, H5. reflexivity.
Qed.

Lemma verdict_ext s s' :
  statics s = statics s' -> histograms_of s = histograms_of s' ->
  verdict P s = verdict P s'.
Proof.
  unfold histograms_of. intros G H. injection H as _ H2 H3 H4 _.
  unfold verdict, sorted_dbyte_char_cnt. rewrite G, H2, H3, H4. reflexivity.
Qed.

Lemma scan_statics_idempotent g b :
  statics (scan P (statics (scan P g b)) b) = statics (scan P g b).
Proof.
  apply globals_eq; unfold scan.
  - rewrite !scan_from_table. cbn [scan_init statics].
    rewrite scan_from_table. reflexivity.
  - rewrite !scan_from_is_binary. cbn [scan_init statics].
    rewrite scan_from_is_binary. cbn [scan_init statics].
    destruct (is_binary g), (existsb _ b); reflexivity.
  - set (g1 := statics (scan_from P (scan_init g) b)).
    destruct (is_utf8_conformant g1) eqn:C1.
    + transitivity (is_utf8_conformant g1); [|exact C1].
      unfold g1 at 2. apply scan_from_utf8_det.
      * cbn [scan_init statics]. unfold g1. rewrite scan_from_table.
        reflexivity.
      * cbn [scan_init statics]. rewrite C1.
        destruct (is_utf8_conformant g) eqn:C; [reflexivity|].
        unfold g1 in C1. rewrite scan_from_nonconformant in C1 by exact C.
        discriminate C1.
      * reflexivity.
    + apply scan_from_nonconformant. exact C1.
  - rewrite !scan_from_nul_stat. cbn [scan_init statics offset].
    rewrite scan_from_nul_stat. cbn [scan_init statics offset].
    rewrite <- Z.lor_assoc, Z.lor_diag. reflexivity.
Qed.

Lemma tellenc_idempotent g b :
  tellenc P (fst (tellenc P g b)) b = tellenc P g b.
Proof.
  unfold tellenc.
  destruct (if (4 <? List.length b)%nat then check_ucs_bom b else None)
    as [r|]; cbn [fst]; [reflexivity|].
  f_equal.
  - apply scan_statics_idempotent.
  - apply verdict_ext; [apply scan_statics_idempotent|].
    apply scan_from_histograms. reflexivity.
Qed.

Lemma plain_text_not_non_text x :
  plain_text x -> is_non_text P (uchar x) = false.
Proof.
  intros [R N]. unfold is_non_text, char_of_uchar, NON_TEXT_CHARS.
  replace (127 <? uchar x) with false by (symmetry; apply Z.ltb_ge; lia).
  rewrite andb_false_r. cbn [existsb].
  repeat match goal with
         | |- context [uchar x =? ?k] =>
             replace (uchar x =? k) with false
               by (symmetry; apply Z.eqb_neq; lia)
         end.
  reflexivity.
Qed.

Lemma plain_text_statics g b :
  utf8_char_table g = utf8_char_table fresh ->
  Forall plain_text b ->
  statics (scan P g b) = g.
Proof.
  intros T H. apply globals_eq; unfold scan.
  - apply scan_from_table.
  - rewrite scan_from_is_binary. cbn [scan_init statics].
    replace (existsb (fun x => is_non_text P (uchar x)) b) with false;
      [apply orb_false_r|].
    symmetry. induction H as [|x b Hx Hb IH]; [reflexivity|].
    cbn [existsb]. rewrite (plain_text_not_non_text x Hx). exact IH.
  - destruct (is_utf8_conformant g) eqn:C.
    + destruct (scan_from_conformant P (scan_init g) b 0 T C eq_refl)
        as [F _].
      rewrite F. apply ascii_no_violation.
      eapply Forall_impl; [|exact H]. intros x [R _]. lia.
    + apply scan_from_nonconformant. exact C.
  - rewrite scan_from_nul_stat. cbn [scan_init statics offset].
    replace (nul_at_parity true 0 b) with false;
      [replace (nul_at_parity false 0 b) with false; [apply Z.lor_0_r|]|].
    + symmetry. generalize 0. induction H as [|x b [R N] Hb IH]; intros pos;
        [reflexivity|].
      cbn [nul_at_parity]. rewrite IH.
      replace (uchar x =? 0) with false by (symmetry; apply Z.eqb_neq; lia).
      reflexivity.
    + symmetry. generalize 0. induction H as [|x b [R N] Hb IH]; intros pos;
        [reflexivity|].
      cbn [nul_at_parity]. rewrite IH.
      replace (uchar x =? 0) with false by (symmetry; apply Z.eqb_neq; lia).
      reflexivity.
Qed.

End Persistence.

(** C2, as the code has it.  The histograms, the digraph counters and the pending
    byte are locals, built afresh by every call: they do not depend on
    the statics a call starts from.  The binary flag, the conformance
    flag and the NUL parity bits are file-level statics: a call starts
    from the values the previous call left, and can only set the first,
    clear the second and add bits to the third.  Classifying the same
    buffer twice in a row gives the same label both times, and the same
    statics.  Classifying [b2] after [b1] is the same as classifying [b2]
    alone whenever [b1] is made of the bytes 0x01-0x7E other than 0x1A
    (the table being filled), or is decided by its BOM. *)
Theorem C2_statics_persist :
  (forall P g g' b,
     histograms_of (scan P g b) = histograms_of (scan P g' b)) /\
  (forall P g b,
     (is_binary g = true -> is_binary (fst (tellenc P g b)) = true) /\
     (is_utf8_conformant g = false ->
      is_utf8_conformant (fst (tellenc P g b)) = false) /\
     Z.lor (nul_stat g) (nul_stat (fst (tellenc P g b))) =
       nul_stat (fst (tellenc P g b))) /\
  (forall P g b, tellenc P (fst (tellenc P g b)) b = tellenc P g b) /\
  (forall P g b1 b2,
     utf8_char_table g = utf8_char_table fresh ->
     Forall plain_text b1 ->
     tellenc P (fst (tellenc P g b1)) b2 = tellenc P g b2) /\
  (forall P g b1 b2,
     (4 < List.length b1)%nat -> check_ucs_bom b1 <> None ->
     tellenc P (fst (tellenc P g b1)) b2 = tellenc P g b2).
Proof.
  split; [|split; [|split; [|split]]].
  - intros P g g' b. apply scan_from_histograms. reflexivity.
  - intros P g b. unfold tellenc.
    destruct (if (4 <? List.length b)%nat then check_ucs_bom b else None)
      as [r|]; cbn [fst].
    + repeat split; auto. apply Z.lor_diag.
    + unfold scan. split; [|split].
      * intros B. rewrite scan_from_is_binary. cbn [scan_init statics].
        rewrite B. reflexivity.
      * intros C. now apply scan_from_nonconformant.
      * rewrite scan_from_nul_stat. cbn [scan_init statics].
        rewrite Z.lor_assoc, Z.lor_diag. reflexivity.
  - intros P g b. apply tellenc_idempotent.
  - intros P g b1 b2 T H. f_equal. unfold tellenc.
    destruct (if (4 <? List.length b1)%nat then check_ucs_bom b1 else None)
      as [r|]; cbn [fst]; [reflexivity|].
    now apply plain_text_statics.
  - intros P g b1 b2 L N. f_equal. unfold tellenc.
    apply Nat.ltb_lt in L. rewrite L.
    destruct (check_ucs_bom b1); [reflexivity|]. now elim N.
Qed.

Lemma C2_witness :
  tellenc stable_platform
    (fst (tellenc stable_platform fresh [x68; x65; x6c; x6c; x6f; x0a]))
    [xb0; xb1; xb0; x41]
  = tellenc stable_platform fresh [xb0; xb1; xb0; x41].
Proof.
  apply (proj1 (proj2 (proj2 (proj2 C2_statics_persist)))
           stable_platform fresh [x68; x65; x6c; x6c; x6f; x0a]
           [xb0; xb1; xb0; x41]).
  - reflexivity.
  - repeat constructor; vm_compute; discriminate.
Defined.

(** After FF 00 FF 00 the statics say "not conformant, binary, NUL at odd
    offsets", and the letter "a", which is "ascii" on its own, comes out
    as "utf-16le". *)
Lemma C2_counterexample :
  snd (tellenc stable_platform
         (fst (tellenc stable_platform fresh [xff; x00; xff; x00])) [x61])
    = Some "utf-16le" /\
  snd (tellenc stable_platform fresh [x61]) = Some "ascii".
Proof. split; vm_compute; reflexivity. Qed.

(** ** C3: the order of the sorted histograms *)

Lemma keys_ascending_map l :
  StronglySorted Z.lt (map fst l) ->
  StronglySorted (fun a b : char_count_t => fst a < fst b) l.
Proof.
  induction l as [|x l IH]; cbn [map]; intros H; [constructor|].
  inversion H as [|? ? Hl Hx]; subst.
  constructor; [now apply IH|].
  rewrite Forall_map in Hx. exact Hx.
Qed.

Lemma seq_ascending a n : StronglySorted Z.lt (map Z.of_nat (seq a n)).
Proof.
  revert a. induction n as [|n IH]; intros a; cbn [seq map]; constructor.
  - apply IH.
  - rewrite Forall_map, Forall_forall. intros i Hi.
    apply in_seq in Hi. lia.
Qed.

Lemma insert_before_ties_spec_order x l :
  StronglySorted spec_order l ->
  Forall (fun e => fst x < fst e) l ->
  StronglySorted spec_order (insert_before_ties greater_char_count x l).
Proof.
  induction 1 as [|e r Hr IH He]; intros K; cbn [insert_before_ties].
  - repeat constructor.
  - inversion K as [|? ? Ke Kr]; subst.
    destruct (greater_char_count e x) eqn:C.
    + apply greater_true_iff in C.
      constructor; [now apply IH|].
      eapply Permutation_Forall; [apply insert_before_ties_perm|].
      constructor; [left; exact C|exact He].
    + apply greater_false_iff in C.
      constructor; [now constructor|].
      constructor; [unfold spec_order; lia|].
      rewrite Forall_forall in He, Kr |- *.
      intros b Hb. specialize (He b Hb). specialize (Kr b Hb).
      unfold spec_order in *. lia.
Qed.

(** A stable sort of a histogram in ascending key order yields the order
    of the specification. *)
Lemma stable_sort_spec_order l :
  StronglySorted (fun a b : char_count_t => fst a < fst b) l ->
  StronglySorted spec_order (stable_sort greater_char_count l).
Proof.
  induction 1 as [|x l Hl IH Hx]; cbn [stable_sort fold_right];
    [constructor|].
  apply insert_before_ties_spec_order; [exact IH|].
  eapply Permutation_Forall; [apply stable_sort_permutes|exact Hx].
Qed.

Lemma set_nth_length {A : Type} i (v : A) a :
  List.length (set_nth i v a) = List.length a.
Proof.
  revert i. induction a as [|x a IH]; intros [|i]; cbn; auto.
Qed.

Lemma set_nth_nth {A : Type} i j (v : A) a d :
  nth i (set_nth j v a) d =
  if (i =? j)%nat && (j <? List.length a)%nat then v else nth i a d.
Proof.
  revert i j. induction a as [|x a IH]; intros i j.
  - destruct j; cbn [set_nth List.length]; rewrite andb_false_r; reflexivity.
  - destruct j as [|j]; destruct i as [|i]; cbn [set_nth nth]; auto.
Qed.

(** *** The sort of the GNU C++ library

    [std::sort] as libstdc++ 12 implements it ([bits/stl_algo.h],
    [bits/stl_heap.h]): introsort (median-of-three quicksort down to
    ranges of 16 elements, heapsort when the depth limit is exhausted)
    followed by an insertion sort.  Arrays are lists, a range is the list
    of its elements, and iterators are indices into it. *)

(** [a[i]], out of range the value-initialised pair. *)
Definition at_index (a : list char_count_t) (i : nat) : char_count_t :=
  nth i a (0, 0).

(** [std::iter_swap(first + i, first + j)]. *)
Definition iter_swap (i j : nat) (a : list char_count_t) : list char_count_t :=
  if (i <? List.length a)%nat && (j <? List.length a)%nat
  then set_nth j (at_index a i) (set_nth i (at_index a j) a)
  else a.

Section LibrarySort.
Variable comp : char_count_t -> char_count_t -> bool.

Definition move_median_to_first (result ia ib ic : nat)
    (a : list char_count_t) : list char_count_t :=
  if comp (at_index a ia) (at_index a ib) then
    if comp (at_index a ib) (at_index a ic) then iter_swap result ib a
    else if comp (at_index a ia) (at_index a ic) then iter_swap result ic a
    else iter_swap result ia a
  else if comp (at_index a ia) (at_index a ic) then iter_swap result ia a
  else if comp (at_index a ib) (at_index a ic) then iter_swap result ic a
  else iter_swap result ib a.

(** [while (comp(first, pivot)) ++first;] *)
Fixpoint scan_up (fuel : nat) (a : list char_count_t) (first pivot : nat)
    : nat :=
  match fuel with
  | O => first
  | S f =>
      if comp (at_index a first) (at_index a pivot)
      then scan_up f a (S first) pivot else first
  end.

(** [while (comp(pivot, last)) --last;] *)
Fixpoint scan_down (fuel : nat) (a : list char_count_t) (last pivot : nat)
    : nat :=
  match fuel with
  | O => last
  | S f =>
      if comp (at_index a pivot) (at_index a last)
      then scan_down f a (pred last) pivot else last
  end.

Fixpoint unguarded_partition (fuel : nat) (first last pivot : nat)
    (a : list char_count_t) : nat * list char_count_t :=
  match fuel with
  | O => (first, a)
  | S f =>
      let first := scan_up (List.length a) a first pivot in
      let last := pred last in
      let last := scan_down (List.length a) a last pivot in
      if negb (first <? last)%nat then (first, a)
      else unguarded_partition f (S first) last pivot (iter_swap first last a)
  end.

(** On the range [first, last) taken as a list of its own. *)
Definition unguarded_partition_pivot (a : list char_count_t)
    : nat * list char_count_t :=
  let len := List.length a in
  let mid := (len / 2)%nat in
  let a := move_median_to_first 0 1 mid (len - 1) a in
  unguarded_partition len 1 len 0 a.

Fixpoint push_heap (fuel : nat) (a : list char_count_t)
    (holeIndex topIndex : nat) (value : char_count_t) : list char_count_t :=
  let parent := ((holeIndex - 1) / 2)%nat in
  match fuel with
  | O => set_nth holeIndex value a
  | S f =>
      if (topIndex <? holeIndex)%nat && comp (at_index a parent) value
      then push_heap f (set_nth holeIndex (at_index a parent) a)
                     parent topIndex value
      else set_nth holeIndex value a
  end.

(** The first loop of [__adjust_heap]: the array, the hole and
    [secondChild] when it ends. *)
Fixpoint sift_down (fuel : nat) (a : list char_count_t)
    (holeIndex secondChild len : nat) : list char_count_t * nat * nat :=
  match fuel with
  | O => (a, holeIndex, secondChild)
  | S f =>
      if (secondChild <? (len - 1) / 2)%nat then
        let secondChild := (2 * (secondChild + 1))%nat in
        let secondChild :=
          if comp (at_index a secondChild) (at_index a (secondChild - 1))
          then (secondChild - 1)%nat else secondChild in
        sift_down f (set_nth holeIndex (at_index a secondChild) a)
                  secondChild secondChild len
      else (a, holeIndex, secondChild)
  end.

Definition adjust_heap (a : list char_count_t) (holeIndex len : nat)
    (value : char_count_t) : list char_count_t :=
  let topIndex := holeIndex in
  let '(a, holeIndex, secondChild) := sift_down len a holeIndex holeIndex len in
  let '(a, holeIndex) :=
    if Nat.even len && (secondChild =? (len - 2) / 2)%nat then
      let secondChild := (2 * (secondChild + 1))%nat in
      (set_nth holeIndex (at_index a (secondChild - 1)) a,
       (secondChild - 1)%nat)
    else (a, holeIndex) in
  push_heap len a holeIndex topIndex value.

(** [__make_heap], [parent] running from [(len - 2) / 2] down to 0. *)
Fixpoint make_heap_from (parent : nat) (a : list char_count_t)
    : list char_count_t :=
  let a := adjust_heap a parent (List.length a) (at_index a parent) in
  match parent with
  | O => a
  | S p => make_heap_from p a
  end.

Definition make_heap (a : list char_count_t) : list char_count_t :=
  if (List.length a <? 2)%nat then a
  else make_heap_from ((List.length a - 2) / 2) a.

(** [--last; __pop_heap(first, last, last)]. *)
Definition pop_heap (last : nat) (a : list char_count_t)
    : list char_count_t :=
  let value := at_index a last in
  let a := set_nth last (at_index a 0) a in
  adjust_heap a 0 last value.

(** [__sort_heap], [last] being the length on entry. *)
Fixpoint sort_heap (last : nat) (a : list char_count_t)
    : list char_count_t :=
  match last with
  | O => a
  | S l => if (1 <? last)%nat then sort_heap l (pop_heap l a) else a
  end.

(** [__partial_sort(first, last, last)]: nothing lies past [middle]. *)
Definition partial_sort (a : list char_count_t) : list char_count_t :=
  sort_heap (List.length a) (make_heap a).

Definition S_threshold : nat := 16.

Fixpoint introsort_loop (depth_limit : nat) (a : list char_count_t)
    : list char_count_t :=
  if (S_threshold <? List.length a)%nat then
    match depth_limit with
    | O => partial_sort a
    | S d =>
        let '(cut, a) := unguarded_partition_pivot a in
        introsort_loop d (firstn cut a) ++ introsort_loop d (skipn cut a)
    end
  else a.

(** [__unguarded_linear_insert] of [val] into the elements before it,
    given from the last one back. *)
Fixpoint linear_insert_rev (val : char_count_t) (before : list char_count_t)
    : list char_count_t :=
  match before with
  | [] => [val]
  | next :: r =>
      if comp val next then next :: linear_insert_rev val r
      else val :: before
  end.

Definition unguarded_linear_insert (before : list char_count_t)
    (val : char_count_t) : list char_count_t :=
  rev (linear_insert_rev val (rev before)).

Definition insertion_step (before : list char_count_t) (val : char_count_t)
    : list char_count_t :=
  match before with
  | [] => [val]
  | first :: _ =>
      if comp val first then val :: before
      else unguarded_linear_insert before val
  end.

Definition insertion_sort (a : list char_count_t) : list char_count_t :=
  fold_left insertion_step a [].

Definition unguarded_insertion_sort (sorted rest : list char_count_t)
    : list char_count_t :=
  fold_left unguarded_linear_insert rest sorted.

Definition final_insertion_sort (a : list char_count_t)
    : list char_count_t :=
  if (S_threshold <? List.length a)%nat then
    unguarded_insertion_sort (insertion_sort (firstn S_threshold a))
                             (skipn S_threshold a)
  else insertion_sort a.

Definition gnu_sort (a : list char_count_t) : list char_count_t :=
  match a with
  | [] => a
  | _ =>
      final_insertion_sort
        (introsort_loop (Nat.log2 (List.length a) * 2) a)
  end.

End LibrarySort.

(** *** The library sort permutes its input *)

Lemma set_nth_twice {A : Type} i (v w : A) a :
  set_nth i v (set_nth i w a) = set_nth i v a.
Proof.
  revert i. induction a as [|x a IH]; intros [|i]; cbn [set_nth]; auto.
  now rewrite IH.
Qed.

Lemma set_nth_same {A : Type} i (a : list A) d :
  set_nth i (nth i a d) a = a.
Proof.
  revert i. induction a as [|x a IH]; intros [|i]; cbn [set_nth nth]; auto.
  now rewrite IH.
Qed.

Lemma set_nth_extract {A : Type} j (x : A) a d :
  (j < List.length a)%nat ->
  Permutation (nth j a d :: set_nth j x a) (x :: a).
Proof.
  revert j. induction a as [|y a IH]; intros [|j] H; cbn [List.length] in H;
    try lia; cbn [set_nth nth].
  - apply perm_swap.
  - transitivity (y :: nth j a d :: set_nth j x a); [apply perm_swap|].
    transitivity (y :: x :: a); [|apply perm_swap].
    constructor. apply IH. lia.
Qed.

Lemma swap_permutation {A : Type} i j (a : list A) d :
  (i < List.length a)%nat -> (j < List.length a)%nat ->
  Permutation (set_nth j (nth i a d) (set_nth i (nth j a d) a)) a.
Proof.
  revert i j. induction a as [|x a IH]; intros [|i] [|j] Hi Hj;
    cbn [List.length] in Hi, Hj; try lia; cbn [set_nth nth].
  - reflexivity.
  - apply set_nth_extract. lia.
  - apply set_nth_extract. lia.
  - constructor. apply IH; lia.
Qed.

Lemma iter_swap_permutation i j a : Permutation (iter_swap i j a) a.
Proof.
  unfold iter_swap, at_index.
  destruct (Nat.ltb_spec i (List.length a)); [|reflexivity].
  destruct (Nat.ltb_spec j (List.length a)); [|reflexivity].
  cbn [andb]. now apply swap_permutation.
Qed.

(** Moving the element at [c] into the hole at [h]: the array with its
    hole filled is permuted. *)
Lemma hole_move h c v a :
  (h < List.length a)%nat -> (c < List.length a)%nat ->
  Permutation (set_nth c v (set_nth h (at_index a c) a)) (set_nth h v a).
Proof.
  intros Hh Hc. unfold at_index.
  destruct (Nat.eq_dec c h) as [->|N].
  - now rewrite set_nth_twice.
  - pose proof (swap_permutation h c (set_nth h v a) (0, 0)) as S.
    rewrite !set_nth_length in S. specialize (S Hh Hc).
    rewrite !set_nth_nth, set_nth_twice in S.
    replace (h =? h)%nat with true in S by (symmetry; apply Nat.eqb_refl).
    replace (c =? h)%nat with false in S
      by (symmetry; now apply Nat.eqb_neq).
    replace (h <? List.length a)%nat with true in S
      by (symmetry; now apply Nat.ltb_lt).
    exact S.
Qed.

Section LibrarySortPermutes.
Variable comp : char_count_t -> char_count_t -> bool.

Lemma move_median_to_first_permutation r ia ib ic a :
  Permutation (move_median_to_first comp r ia ib ic a) a.
Proof.
  unfold move_median_to_first.
  repeat match goal with
         | |- context [if ?c then _ else _] => destruct c
         end; apply iter_swap_permutation.
Qed.

Lemma unguarded_partition_permutation fuel first last pivot a :
  Permutation (snd (unguarded_partition comp fuel first last pivot a)) a.
Proof.
  revert first last a. induction fuel as [|f IH]; intros first last a;
    cbn [unguarded_partition]; [reflexivity|].
  destruct (negb _); [reflexivity|].
  rewrite IH. apply iter_swap_permutation.
Qed.

Lemma unguarded_partition_pivot_permutation a :
  Permutation (snd (unguarded_partition_pivot comp a)) a.
Proof.
  unfold unguarded_partition_pivot.
  rewrite unguarded_partition_permutation.
  apply move_median_to_first_permutation.
Qed.

Lemma push_heap_permutation fuel a hole top v :
  (hole < List.length a)%nat ->
  Permutation (push_heap comp fuel a hole top v) (set_nth hole v a).
Proof.
  revert a hole. induction fuel as [|f IH]; intros a hole H;
    cbn [push_heap]; [reflexivity|].
  destruct (_ && _); [|reflexivity].
  assert (P : ((hole - 1) / 2 < List.length a)%nat).
  { apply Nat.le_lt_trans with (hole - 1)%nat; [|lia].
    apply Nat.Div0.div_le_upper_bound. lia. }
  rewrite IH by (rewrite set_nth_length; exact P).
  apply hole_move; assumption.
Qed.

Lemma sift_down_permutation fuel a hole second len v :
  (len <= List.length a)%nat -> (hole < List.length a)%nat ->
  let '(a', hole', _) := sift_down comp fuel a hole second len in
  Permutation (set_nth hole' v a') (set_nth hole v a) /\
  (hole' < List.length a')%nat /\ List.length a' = List.length a.
Proof.
  revert a hole second. induction fuel as [|f IH]; intros a hole second L H;
    cbn [sift_down]; [repeat split; [reflexivity|exact H]|].
  destruct (Nat.ltb_spec second ((len - 1) / 2)) as [C|C];
    [|repeat split; [reflexivity|exact H]].
  assert (B : (2 * (second + 1) < len)%nat).
  { assert (second + 1 <= (len - 1) / 2)%nat by lia.
    assert (2 * ((len - 1) / 2) <= len - 1)%nat
      by (apply Nat.Div0.mul_div_le).
    lia. }
  set (s2 := if comp (at_index a (2 * (second + 1)))
                     (at_index a (2 * (second + 1) - 1))
             then (2 * (second + 1) - 1)%nat else (2 * (second + 1))%nat).
  assert (S2 : (s2 < List.length a)%nat) by (subst s2; destruct (comp _ _); lia).
  specialize (IH (set_nth hole (at_index a s2) a) s2 s2).
  rewrite set_nth_length in IH. specialize (IH L S2).
  destruct (sift_down comp f _ s2 s2 len) as [[a' hole'] second'].
  destruct IH as (IP & IH' & IL). repeat split; [|exact IH'|exact IL].
  rewrite IP. apply hole_move; assumption.
Qed.

Lemma adjust_heap_permutation a hole len v :
  (hole < len)%nat -> (len <= List.length a)%nat ->
  Permutation (adjust_heap comp a hole len v) (set_nth hole v a).
Proof.
  intros H L. unfold adjust_heap.
  pose proof (sift_down_permutation len a hole hole len v L) as S.
  destruct (sift_down comp len a hole hole len) as [[a1 hole1] second1].
  destruct S as (SP & SH & SL); [lia|].
  destruct (Nat.even len && (second1 =? (len - 2) / 2)%nat) eqn:E.
  - apply andb_true_iff in E. destruct E as [Ev Eq].
    apply Nat.eqb_eq in Eq. apply Nat.even_spec in Ev.
    destruct Ev as [k Ek].
    assert (I : (2 * (second1 + 1) - 1 < List.length a1)%nat).
    { rewrite SL, Eq. subst len.
      replace (2 * k - 2)%nat with ((k - 1) * 2)%nat by lia.
      rewrite Nat.div_mul by lia. lia. }
    rewrite push_heap_permutation by (rewrite set_nth_length; exact I).
    rewrite hole_move by assumption. exact SP.
  - rewrite push_heap_permutation by exact SH. exact SP.
Qed.

Lemma make_heap_from_permutation parent a :
  (parent < List.length a)%nat ->
  Permutation (make_heap_from comp parent a) a.
Proof.
  revert a. induction parent as [|p IH]; intros a H; cbn [make_heap_from].
  - rewrite adjust_heap_permutation by lia. unfold at_index.
    now rewrite set_nth_same.
  - assert (A : Permutation (adjust_heap comp a (S p) (List.length a)
                               (at_index a (S p))) a).
    { rewrite adjust_heap_permutation by lia. unfold at_index.
      now rewrite set_nth_same. }
    rewrite IH; [exact A|].
    rewrite (Permutation_length A). lia.
Qed.

Lemma make_heap_permutation a : Permutation (make_heap comp a) a.
Proof.
  unfold make_heap.
  destruct (Nat.ltb_spec (List.length a) 2); [reflexivity|].
  apply make_heap_from_permutation.
  apply Nat.le_lt_trans with (List.length a - 2)%nat; [|lia].
  apply Nat.Div0.div_le_upper_bound. lia.
Qed.

Lemma pop_heap_permutation last a :
  (1 <= last)%nat -> (last < List.length a)%nat ->
  Permutation (pop_heap comp last a) a.
Proof.
  intros H L. unfold pop_heap.
  rewrite adjust_heap_permutation by (rewrite ?set_nth_length; lia).
  unfold at_index. apply swap_permutation; lia.
Qed.

Lemma sort_heap_permutation last a :
  (last <= List.length a)%nat -> Permutation (sort_heap comp last a) a.
Proof.
  revert a. induction last as [|l IH]; intros a L; cbn [sort_heap];
    [reflexivity|].
  destruct (Nat.ltb_spec 1 (S l)); [|reflexivity].
  assert (P : Permutation (pop_heap comp l a) a)
    by (apply pop_heap_permutation; lia).
  rewrite IH; [exact P|].
  rewrite (Permutation_length P). lia.
Qed.

Lemma partial_sort_permutation a : Permutation (partial_sort comp a) a.
Proof.
  unfold partial_sort.
  rewrite sort_heap_permutation.
  - apply make_heap_permutation.
  - now rewrite (Permutation_length (make_heap_permutation a)).
Qed.

Lemma introsort_loop_permutation depth a :
  Permutation (introsort_loop comp depth a) a.
Proof.
  revert a. induction depth as [|d IH]; intros a; cbn [introsort_loop];
    destruct (S_threshold <? List.length a)%nat; try reflexivity.
  - apply partial_sort_permutation.
  - pose proof (unguarded_partition_pivot_permutation a) as U.
    destruct (unguarded_partition_pivot comp a) as [cut a1].
    cbn [snd] in U. rewrite !IH, firstn_skipn. exact U.
Qed.

Lemma linear_insert_rev_permutation v q :
  Permutation (linear_insert_rev comp v q) (v :: q).
Proof.
  induction q as [|x q IH]; cbn [linear_insert_rev]; [reflexivity|].
  destruct (comp v x); [|reflexivity].
  rewrite IH. apply perm_swap.
Qed.

Lemma unguarded_linear_insert_permutation before v :
  Permutation (unguarded_linear_insert comp before v) (v :: before).
Proof.
  unfold unguarded_linear_insert.
  rewrite <- Permutation_rev, linear_insert_rev_permutation.
  constructor. symmetry. apply Permutation_rev.
Qed.

Lemma insertion_step_permutation before v :
  Permutation (insertion_step comp before v) (v :: before).
Proof.
  unfold insertion_step. destruct before as [|first r]; [reflexivity|].
  destruct (comp v first); [reflexivity|].
  apply unguarded_linear_insert_permutation.
Qed.

Lemma fold_insert_permutation
    (step : list char_count_t -> char_count_t -> list char_count_t) :
  (forall before v, Permutation (step before v) (v :: before)) ->
  forall rest before, Permutation (fold_left step rest before) (before ++ rest).
Proof.
  intros S. induction rest as [|v rest IH]; intros before; cbn [fold_left].
  - now rewrite app_nil_r.
  - rewrite IH, S. apply Permutation_middle.
Qed.

Lemma final_insertion_sort_permutation a :
  Permutation (final_insertion_sort comp a) a.
Proof.
  unfold final_insertion_sort, unguarded_insertion_sort, insertion_sort.
  destruct (S_threshold <? List.length a)%nat.
  - rewrite (fold_insert_permutation _ unguarded_linear_insert_permutation).
    rewrite (fold_insert_permutation _ insertion_step_permutation).
    cbn [app]. now rewrite firstn_skipn.
  - now rewrite (fold_insert_permutation _ insertion_step_permutation).
Qed.

Lemma gnu_sort_permutation a : Permutation a (gnu_sort comp a).
Proof.
  unfold gnu_sort. destruct a as [|x a]; [reflexivity|].
  symmetry. rewrite final_insertion_sort_permutation.
  apply introsort_loop_permutation.
Qed.

End LibrarySortPermutes.

(** *** The library sort orders by count, and keeps ties in short ranges *)

Lemma strongly_sorted_snoc {A : Type} (R : A -> A -> Prop) l x :
  StronglySorted R l -> Forall (fun y => R y x) l ->
  StronglySorted R (l ++ [x]).
Proof.
  induction 1 as [|y l Hl IH Hy]; intros F; cbn [app].
  - repeat constructor.
  - inversion F; subst. constructor; [now apply IH|].
    apply Forall_app. split; [exact Hy|]. now repeat constructor.
Qed.

Lemma strongly_sorted_rev {A : Type} (R : A -> A -> Prop) l :
  StronglySorted R l -> StronglySorted (fun a b => R b a) (rev l).
Proof.
  induction 1 as [|x l Hl IH Hx]; cbn [rev]; [constructor|].
  apply strongly_sorted_snoc; [exact IH|].
  now apply Forall_rev.
Qed.

Lemma strongly_sorted_unrev {A : Type} (R : A -> A -> Prop) l :
  StronglySorted (fun a b => R b a) l -> StronglySorted R (rev l).
Proof. intros H. now apply strongly_sorted_rev in H. Qed.

Lemma strongly_sorted_impl {A : Type} (R R' : A -> A -> Prop) l :
  (forall a b, R a b -> R' a b) ->
  StronglySorted R l -> StronglySorted R' l.
Proof.
  intros I. induction 1 as [|x l Hl IH Hx]; constructor; [exact IH|].
  eapply Forall_impl; [|exact Hx]. intros b. apply I.
Qed.

Lemma counts_descending_iff l :
  counts_descending l <-> StronglySorted (fun a b => snd b <= snd a) l.
Proof.
  unfold counts_descending.
  split; apply strongly_sorted_impl; intros a b; apply greater_false_iff.
Qed.

Section InsertionOrders.

(** Insertion keeps a range that is ordered by count ordered by count. *)
Lemma linear_insert_rev_counts v q :
  StronglySorted (fun a b => snd a <= snd b) q ->
  StronglySorted (fun a b => snd a <= snd b)
                 (linear_insert_rev greater_char_count v q).
Proof.
  induction 1 as [|x q Hq IH Hx]; cbn [linear_insert_rev].
  - repeat constructor.
  - destruct (greater_char_count v x) eqn:C.
    + apply greater_true_iff in C. constructor; [exact IH|].
      eapply Permutation_Forall;
        [symmetry; apply linear_insert_rev_permutation|].
      constructor; [lia|exact Hx].
    + apply greater_false_iff in C.
      constructor; [now constructor|].
      constructor; [exact C|].
      eapply Forall_impl; [|exact Hx]. cbn beta. intros; lia.
Qed.

Lemma unguarded_linear_insert_counts before v :
  StronglySorted (fun a b => snd b <= snd a) before ->
  StronglySorted (fun a b => snd b <= snd a)
                 (unguarded_linear_insert greater_char_count before v).
Proof.
  intros H. unfold unguarded_linear_insert.
  apply strongly_sorted_unrev, linear_insert_rev_counts.
  now apply strongly_sorted_rev in H.
Qed.

Lemma insertion_step_counts before v :
  StronglySorted (fun a b => snd b <= snd a) before ->
  StronglySorted (fun a b => snd b <= snd a)
                 (insertion_step greater_char_count before v).
Proof.
  intros H. unfold insertion_step.
  destruct before as [|first r]; [repeat constructor|].
  destruct (greater_char_count v first) eqn:C;
    [|now apply unguarded_linear_insert_counts].
  apply greater_true_iff in C. constructor; [exact H|].
  inversion H as [|? ? Hr Hf]; subst.
  constructor; [lia|].
  eapply Forall_impl; [|exact Hf]. cbn beta. intros; lia.
Qed.

Lemma fold_insert_sorted (R : char_count_t -> char_count_t -> Prop)
    (step : list char_count_t -> char_count_t -> list char_count_t) :
  (forall before v, StronglySorted R before -> StronglySorted R (step before v)) ->
  forall rest before,
    StronglySorted R before -> StronglySorted R (fold_left step rest before).
Proof.
  intros S. induction rest as [|v rest IH]; intros before H; cbn [fold_left];
    [exact H|].
  apply IH, S, H.
Qed.

Lemma gnu_sort_orders l : counts_descending (gnu_sort greater_char_count l).
Proof.
  apply counts_descending_iff. unfold gnu_sort.
  destruct l as [|x l]; [constructor|].
  unfold final_insertion_sort, unguarded_insertion_sort, insertion_sort.
  destruct (S_threshold <? _)%nat.
  - apply (fold_insert_sorted _ _ unguarded_linear_insert_counts).
    apply (fold_insert_sorted _ _ insertion_step_counts). constructor.
  - apply (fold_insert_sorted _ _ insertion_step_counts). constructor.
Qed.

(** Insertion of an element whose key is above all keys before it keeps
    the order of the specification. *)
Lemma linear_insert_rev_spec_order v q :
  StronglySorted (fun a b => spec_order b a) q ->
  Forall (fun y => fst y < fst v) q ->
  StronglySorted (fun a b => spec_order b a)
                 (linear_insert_rev greater_char_count v q).
Proof.
  induction 1 as [|x q Hq IH Hx]; intros K; cbn [linear_insert_rev].
  - repeat constructor.
  - inversion K as [|? ? Kx Kq]; subst.
    destruct (greater_char_count v x) eqn:C.
    + apply greater_true_iff in C. constructor; [now apply IH|].
      eapply Permutation_Forall;
        [symmetry; apply linear_insert_rev_permutation|].
      constructor; [left; exact C|exact Hx].
    + apply greater_false_iff in C.
      constructor; [now constructor|].
      constructor; [unfold spec_order; lia|].
      rewrite Forall_forall in Hx, Kq |- *. intros y Hy.
      specialize (Hx y Hy). specialize (Kq y Hy).
      unfold spec_order in *. lia.
Qed.

Lemma insertion_step_spec_order before v :
  StronglySorted spec_order before ->
  Forall (fun y => fst y < fst v) before ->
  StronglySorted spec_order (insertion_step greater_char_count before v).
Proof.
  intros H K. unfold insertion_step.
  destruct before as [|first r]; [repeat constructor|].
  destruct (greater_char_count v first) eqn:C.
  - apply greater_true_iff in C. constructor; [exact H|].
    inversion H as [|? ? Hr Hf]; subst.
    constructor; [left; exact C|].
    eapply Forall_impl; [|exact Hf]. unfold spec_order. intros; lia.
  - unfold unguarded_linear_insert.
    apply strongly_sorted_unrev, linear_insert_rev_spec_order.
    + now apply strongly_sorted_rev in H.
    + now apply Forall_rev.
Qed.

Lemma insertion_sort_spec_order rest before :
  StronglySorted spec_order before ->
  StronglySorted (fun a b => fst a < fst b) rest ->
  Forall (fun y => Forall (fun x => fst x < fst y) before) rest ->
  StronglySorted spec_order
                 (fold_left (insertion_step greater_char_count) rest before).
Proof.
  revert before. induction rest as [|v rest IH]; intros before H A K;
    cbn [fold_left]; [exact H|].
  inversion A as [|? ? Ar Av]; subst. inversion K as [|? ? Kv Kr]; subst.
  apply IH; [now apply insertion_step_spec_order|exact Ar|].
  rewrite Forall_forall in Av, Kr |- *. intros y Hy.
  eapply Permutation_Forall;
    [symmetry; apply insertion_step_permutation|].
  constructor; [now apply Av|now apply Kr].
Qed.

(** A range of at most 16 elements is only insertion-sorted: with its
    keys ascending on entry, equal counts keep ascending keys. *)
Lemma gnu_sort_short_range (l : list char_count_t) :
  (List.length l <= S_threshold)%nat ->
  StronglySorted (fun a b => fst a < fst b) l ->
  StronglySorted spec_order (gnu_sort greater_char_count l).
Proof.
  intros L A. unfold gnu_sort. destruct l as [|x l]; [constructor|].
  apply Nat.ltb_ge in L.
  assert (E : introsort_loop greater_char_count
                (Nat.log2 (List.length (x :: l)) * 2) (x :: l) = x :: l).
  { destruct (Nat.log2 _ * 2)%nat; cbn [introsort_loop]; now rewrite L. }
  rewrite E. unfold final_insertion_sort, insertion_sort. rewrite L.
  apply insertion_sort_spec_order; [constructor|exact A|].
  apply Forall_forall. intros; constructor.
Qed.

End InsertionOrders.

(** A platform whose [std::sort] is that of the GNU library. *)
Definition libstdcxx_platform (signed : bool) (bits : N) : Platform :=
  {| char_is_signed := signed;
     size_t_bits := bits;
     sort := gnu_sort;
     sort_permutes := gnu_sort_permutation greater_char_count;
     sort_orders := gnu_sort_orders |}.

(** C3, as the code has it.  For every buffer, when the scan is over the
    byte histogram is in ascending byte order and the vector copied from
    the digraph map is in ascending digraph order.  [std::sort] then
    makes each of them a permutation of itself with counts descending.
    It is not a stable sort: with the GNU library's [std::sort], equal
    counts keep their ascending digraph value when the digraph histogram
    has at most 16 entries, a range that is only insertion-sorted; the
    256 entries of the byte histogram, and longer digraph histograms, are
    partitioned first, which moves equal counts past one another. *)
Theorem C3_sorted_histograms (signed : bool) (bits : N) (g : globals)
    (b : list byte) :
  let P := libstdcxx_platform signed bits in
  let s := scan P g b in
  StronglySorted (fun x y => fst x < fst y) (char_cnt s) /\
  StronglySorted (fun x y => fst x < fst y)
                 (map_to_vector (mp_dbyte_char_cnt s)) /\
  Permutation (char_cnt s) (sorted_char_cnt P s) /\
  counts_descending (sorted_char_cnt P s) /\
  Permutation (map_to_vector (mp_dbyte_char_cnt s))
              (sorted_dbyte_char_cnt P s) /\
  counts_descending (sorted_dbyte_char_cnt P s) /\
  ((List.length (mp_dbyte_char_cnt s) <= 16)%nat ->
   StronglySorted spec_order (sorted_dbyte_char_cnt P s)).
Proof.
  intros P s.
  assert (A1 : StronglySorted (fun x y => fst x < fst y) (char_cnt s)).
  { apply keys_ascending_map. unfold s, scan.
    rewrite scan_from_char_cnt_keys. unfold scan_init, init_char_count.
    cbn [char_cnt]. rewrite map_map. cbn [fst]. apply seq_ascending. }
  assert (A2 : StronglySorted (fun x y => fst x < fst y)
                              (map_to_vector (mp_dbyte_char_cnt s))).
  { rewrite map_to_vector_id. unfold s, scan.
    apply scan_from_mp_ascending. constructor. }
  unfold sorted_char_cnt, sorted_dbyte_char_cnt.
  cbn [sort P libstdcxx_platform].
  repeat split; auto using gnu_sort_permutation, gnu_sort_orders.
  intros L. apply gnu_sort_short_range; [|exact A2].
  rewrite map_to_vector_id. exact L.
Qed.

(** The two digraphs of A1 41 A3 AC, both of count one, come out as
    A141, A3AC. *)
Lemma C3_witness :
  StronglySorted spec_order
    (sorted_dbyte_char_cnt (libstdcxx_platform true 64)
       (scan (libstdcxx_platform true 64) fresh [xa1; x41; xa3; xac])).
Proof.
  apply (proj2 (proj2 (proj2 (proj2 (proj2 (proj2
           (C3_sorted_histograms true 64 fresh [xa1; x41; xa3; xac]))))))).
  vm_compute. lia.
Defined.

(** With the GNU library's sort.  The byte histogram of "hello" starts
    l: 2, o: 1, e: 1, h: 1: the three bytes of count one are not in
    ascending order.  In the buffer A1 41, B0 A1, ..., B0 AF, D6 AE the
    seventeen digraphs all have count one; the sorted vector starts with
    B0A8, D6AE and has A141 in tenth place, so the dictionary finds D6AE
    first and the label is "gbk", where ties in ascending digraph order
    (A141 first, as a stable sort leaves them) give "big5". *)
Lemma C3_counterexample :
  firstn 4 (sorted_char_cnt (libstdcxx_platform true 64)
              (scan (libstdcxx_platform true 64) fresh
                 [x68; x65; x6c; x6c; x6f]))
    = [(0x6c, 2); (0x6f, 1); (0x65, 1); (0x68, 1)] /\
  firstn 10 (sorted_dbyte_char_cnt (libstdcxx_platform true 64)
              (scan (libstdcxx_platform true 64) fresh
                 [xa1; x41; xb0; xa1; xb0; xa2; xb0; xa3; xb0; xa4;
                  xb0; xa5; xb0; xa6; xb0; xa7; xb0; xa8; xb0; xa9;
                  xb0; xaa; xb0; xab; xb0; xac; xb0; xad; xb0; xae;
                  xb0; xaf; xd6; xae]))
    = [(0xb0a8, 1); (0xd6ae, 1); (0xb0af, 1); (0xb0ae, 1); (0xb0ad, 1);
       (0xb0ac, 1); (0xb0ab, 1); (0xb0aa, 1); (0xb0a9, 1); (0xa141, 1)] /\
  snd (tellenc (libstdcxx_platform true 64) fresh
         [xa1; x41; xb0; xa1; xb0; xa2; xb0; xa3; xb0; xa4;
          xb0; xa5; xb0; xa6; xb0; xa7; xb0; xa8; xb0; xa9;
          xb0; xaa; xb0; xab; xb0; xac; xb0; xad; xb0; xae;
          xb0; xaf; xd6; xae])
    = Some "gbk" /\
  snd (tellenc stable_platform fresh
         [xa1; x41; xb0; xa1; xb0; xa2; xb0; xa3; xb0; xa4;
          xb0; xa5; xb0; xa6; xb0; xa7; xb0; xa8; xb0; xa9;
          xb0; xaa; xb0; xab; xb0; xac; xb0; xad; xb0; xae;
          xb0; xaf; xd6; xae])
    = Some "big5".
Proof. repeat split; vm_compute; reflexivity. Qed.


(** ** C4: the labels *)

Lemma freq_analysis_data_labels :
  Forall (fun e => enc e = "gbk" \/ enc e = "big5") freq_analysis_data.
Proof.
  unfold freq_analysis_data.
  repeat (apply Forall_cons; [cbn; auto|]). apply Forall_nil.
Qed.

Lemma check_dbyte_labels d e :
  check_dbyte d = Some e -> e = "gbk" \/ e = "big5".
Proof.
  unfold check_dbyte.
  destruct (find _ freq_analysis_data) as [x|] eqn:F; cbn; [|discriminate].
  intros H. injection H as <-.
  apply find_some in F. destruct F as [F _].
  pose proof freq_analysis_data_labels as L.
  rewrite Forall_forall in L. now apply L.
Qed.

Lemma first_enc_labels v e :
  first_enc v = Some e -> e = "gbk" \/ e = "big5".
Proof.
  induction v as [|it v IH]; cbn [first_enc]; [discriminate|].
  destruct (check_dbyte (fst it)) as [e'|] eqn:C; [|exact IH].
  intros H. injection H as <-. now apply check_dbyte_labels in C.
Qed.

Lemma verdict_labels P s l : verdict P s = Some l -> In l tellenc_labels.
Proof.
  unfold verdict, check_freq_dbytes, tellenc_labels.
  repeat match goal with
         | |- context [if ?c then _ else _] => destruct c
         end;
    try (intros H; injection H as <-; cbn [In]; tauto);
    intros H; apply first_enc_labels in H; destruct H as [-> | ->];
    cbn [In]; tauto.
Qed.

(** C4, as the code has it.  [tellenc] is defined on every byte sequence and on
    every state of the statics.  It returns either one of the eleven
    labels ucs-4, ucs-4le, utf-8, utf-16, utf-16le, ascii, latin1,
    gb2312, gbk, big5, binary, or no label at all ([NULL]) when no rule
    of the decision matches.  It is the caller, [main], that prints
    "unknown" for the missing label, so that what is printed is always
    one of the twelve labels.  The empty buffer is "ascii". *)
Theorem C4_labels :
  (forall P g b,
     match snd (tellenc P g b) with
     | Some l => In l tellenc_labels
     | None => True
     end) /\
  (forall P file, In (main_output P file) printed_labels) /\
  (forall P file,
     snd (tellenc P fresh (firstn (Z.to_nat TELLENC_BUFFER_SIZE) file)) = None
     <-> main_output P file = "unknown") /\
  (forall P, snd (tellenc P fresh []) = Some "ascii").
Proof.
  assert (A : forall P g b,
             match snd (tellenc P g b) with
             | Some l => In l tellenc_labels
             | None => True
             end).
  { intros P g b. unfold tellenc.
    destruct (if (4 <? List.length b)%nat then check_ucs_bom b else None)
      as [r|] eqn:E; cbn [snd].
    - destruct (4 <? List.length b)%nat; [|discriminate].
      now apply check_ucs_bom_labels in E.
    - destruct (verdict P (scan P g b)) as [l|] eqn:V; [|exact I].
      now apply verdict_labels in V. }
  split; [exact A|]. split; [|split].
  - intros P file. unfold main_output, printed_labels.
    specialize (A P (init_utf8_char_table initial_globals)
                  (firstn (Z.to_nat TELLENC_BUFFER_SIZE) file)).
    destruct (snd (tellenc P _ _)) as [l|].
    + apply in_or_app. now left.
    + apply in_or_app. right. now left.
  - intros P file. unfold main_output. fold fresh.
    specialize (A P fresh (firstn (Z.to_nat TELLENC_BUFFER_SIZE) file)).
    destruct (snd (tellenc P fresh _)) as [l|].
    + split; [discriminate|]. intros ->.
      unfold tellenc_labels in A. cbn [In] in A.
      repeat (destruct A as [A|A]; [discriminate A|]). elim A.
    + split; reflexivity.
  - intros [[|] bits srt Hp Ho]; vm_compute; reflexivity.
Qed.

(** Two digraphs, B0B1 and B041: half of them hi-hi, neither in the
    dictionary.  [tellenc] returns [NULL], and "unknown" is what [main]
    prints. *)
Lemma C4_counterexample :
  snd (tellenc stable_platform fresh [xb0; xb1; xb0; x41]) = None /\
  main_output stable_platform [xb0; xb1; xb0; x41] = "unknown".
Proof. split; vm_compute; reflexivity. Qed.

(** ** The byte 0xFF and the signedness of [char]

    [is_non_text] takes a [char]: where [char] is signed, 0xFF arrives as
    -1 and is not found among [NON_TEXT_CHARS], so it does not set the
    binary flag; where [char] is unsigned it does. *)
Lemma byte_ff_non_text P :
  is_non_text P (uchar xff) = negb (char_is_signed P).
Proof. destruct P as [[|] bits srt Hp Ho]; reflexivity. Qed.

Lemma byte_ff_label :
  snd (tellenc stable_platform fresh [xff; x61]) = Some "latin1" /\
  snd (tellenc unsigned_char_platform fresh [xff; x61]) = Some "binary".
Proof. split; vm_compute; reflexivity. Qed.

(** * Further properties of the code *)

(** ** The byte histogram, entry by entry (lines 191-197, 338) *)

(** The number of bytes of value [v] in a buffer. *)
Definition occurrences (v : Z) (buffer : list byte) : Z :=
  Z.of_nat (List.length (filter (fun x => uchar x =? v) buffer)).

Lemma incr_second_nth i j a d :
  nth i (incr_second j a) d =
  if (i =? j)%nat && (j <? List.length a)%nat
  then (fst (nth i a d), snd (nth i a d) + 1)
  else nth i a d.
Proof.
  revert i j. induction a as [|[k c] a IH]; intros i j.
  - destruct j; cbn [incr_second List.length]; rewrite andb_false_r;
      reflexivity.
  - destruct j as [|j]; destruct i as [|i]; cbn [incr_second nth]; auto.
Qed.

Lemma scan_from_char_cnt_nth P s b i d :
  List.length (char_cnt s) = MAX_CHAR ->
  nth i (char_cnt (scan_from P s b)) d =
  (fst (nth i (char_cnt s) d),
   snd (nth i (char_cnt s) d) + occurrences (Z.of_nat i) b).
Proof.
  revert s. induction b as [|x b IH]; intros s L.
  - unfold occurrences. cbn. rewrite Z.add_0_r. now destruct (nth i _ d).
  - rewrite scan_from_cons, IH
      by (rewrite scan_step_char_cnt, incr_second_length; exact L).
    rewrite scan_step_char_cnt, incr_second_nth, L.
    pose proof (uchar_range x) as R.
    replace (Z.to_nat (uchar x) <? MAX_CHAR)%nat with true
      by (symmetry; apply Nat.ltb_lt; unfold MAX_CHAR; lia).
    rewrite andb_true_r. unfold occurrences. cbn [filter].
    destruct (Nat.eqb_spec i (Z.to_nat (uchar x))) as [E|E].
    + replace (uchar x =? Z.of_nat i) with true
        by (symmetry; apply Z.eqb_eq; lia).
      cbn [fst snd List.length]. f_equal. lia.
    + replace (uchar x =? Z.of_nat i) with false
        by (symmetry; apply Z.eqb_neq; lia).
      reflexivity.
Qed.

(** X1.  After the scan, entry [v] of the byte histogram is the pair of
    [v] and the number of bytes of value [v] in the buffer, for every
    byte value [v]: a byte absent from the buffer has count zero. *)
Theorem char_cnt_counts_occurrences (P : Platform) (g : globals)
    (buffer : list byte) (v : byte) :
  nth (Z.to_nat (uchar v)) (char_cnt (scan P g buffer)) (0, 0) =
  (uchar v, occurrences (uchar v) buffer).
Proof.
  pose proof (uchar_range v) as R. unfold scan.
  rewrite scan_from_char_cnt_nth by reflexivity.
  rewrite Z2Nat.id by lia.
  cbn [scan_init char_cnt].
  assert (E : nth (Z.to_nat (uchar v)) init_char_count (0, 0) = (uchar v, 0)).
  { unfold init_char_count.
    change (0, 0) with ((fun i => (Z.of_nat i, 0)) 0%nat).
    rewrite map_nth, seq_nth by (unfold MAX_CHAR; lia).
    cbn [Nat.add]. rewrite Z2Nat.id by lia. reflexivity. }
  rewrite E. reflexivity.
Qed.

(** ** The digraph map, key by key (lines 339-346) *)

(** The count the map holds under [k], zero when [k] is absent. *)
Fixpoint map_lookup (k : Z) (m : list char_count_t) : Z :=
  match m with
  | [] => 0
  | (k', v) :: r => if k =? k' then v else map_lookup k r
  end.

Lemma map_lookup_absent k m :
  Forall (fun it => k < fst it) m -> map_lookup k m = 0.
Proof.
  induction 1 as [|[k' v] m H Hm IH]; cbn [map_lookup]; [reflexivity|].
  cbn [fst] in H.
  replace (k =? k') with false by (symmetry; apply Z.eqb_neq; lia).
  exact IH.
Qed.

Lemma map_lookup_incr k k0 m :
  StronglySorted (fun a b : char_count_t => fst a < fst b) m ->
  map_lookup k (map_incr k0 m) =
  if k =? k0 then map_lookup k m + 1 else map_lookup k m.
Proof.
  induction 1 as [|[k' v] m Hm IH Hk']; cbn [map_incr map_lookup].
  - destruct (k =? k0); reflexivity.
  - destruct (k0 <? k') eqn:L.
    + apply Z.ltb_lt in L. cbn [map_lookup].
      destruct (Z.eqb_spec k k0) as [->|N]; [|reflexivity].
      replace (k0 =? k') with false by (symmetry; apply Z.eqb_neq; lia).
      rewrite map_lookup_absent; [reflexivity|].
      eapply Forall_impl; [|exact Hk']. cbn. intros; lia.
    + destruct (Z.eqb_spec k0 k') as [->|N]; cbn [map_lookup].
      * destruct (k =? k'); reflexivity.
      * rewrite IH. destruct (Z.eqb_spec k k') as [->|N'];
          [|reflexivity].
        replace (k' =? k0) with false by (symmetry; apply Z.eqb_neq; lia).
        reflexivity.
Qed.

(** The consumed pairs whose digraph value is [k]. *)
Definition pairs_of_value (k : Z) (pairs : list (Z * Z)) : Z :=
  Z.of_nat (List.length
              (filter (fun d => digraph (fst d) (snd d) =? k) pairs)).

(** What the pending slot can hold: nothing, or a byte from 0x80 up. *)
Definition slot_ok (last : Z) : Prop := last = EOF \/ 0x80 <= last < 256.

Lemma scan_step_slot_ok P s x : slot_ok (last_ch s) -> slot_ok (last_ch (scan_step P s x)).
Proof.
  intros H. rewrite scan_step_last_ch. pose proof (uchar_range x) as R.
  destruct (negb (last_ch s =? EOF)); [now left|].
  destruct (0x80 <=? uchar x) eqn:L; [|exact H].
  apply Z.leb_le in L. right. lia.
Qed.

Lemma scan_from_mp_lookup P s b k :
  slot_ok (last_ch s) ->
  StronglySorted (fun a b : char_count_t => fst a < fst b)
                 (mp_dbyte_char_cnt s) ->
  map_lookup k (mp_dbyte_char_cnt (scan_from P s b)) =
  map_lookup k (mp_dbyte_char_cnt s) +
  pairs_of_value k (consumed_pairs (pending_of (last_ch s)) b).
Proof.
  revert s. induction b as [|x b IH]; intros s K A.
  - unfold pairs_of_value. cbn. lia.
  - rewrite scan_from_cons, IH;
      [|now apply scan_step_slot_ok|
       apply (scan_from_mp_ascending P s [x]); exact A].
    rewrite scan_step_mp, scan_step_last_ch.
    assert (Hp : pending_of (last_ch s) =
                 if last_ch s =? EOF then None else Some (last_ch s))
      by reflexivity.
    rewrite Hp. clear Hp. cbn [consumed_pairs].
    pose proof (uchar_range x) as R.
    destruct (last_ch s =? EOF) eqn:E; cbn [negb].
    + destruct (0x80 <=? uchar x).
      * rewrite pending_of_uchar. reflexivity.
      * apply Z.eqb_eq in E. rewrite E, pending_of_EOF. reflexivity.
    + rewrite pending_of_EOF, map_lookup_incr by exact A.
      apply Z.eqb_neq in E. destruct K as [K|K]; [contradiction|].
      rewrite dbyte_char_digraph by lia.
      unfold pairs_of_value. cbn [filter fst snd].
      rewrite (Z.eqb_sym k).
      destruct (digraph (last_ch s) (uchar x) =? k); cbn [List.length]; lia.
Qed.

Lemma scan_from_mp_keys P s b :
  slot_ok (last_ch s) ->
  Forall (fun it => 0x8000 <= fst it <= 0xFFFF /\ 1 <= snd it)
         (mp_dbyte_char_cnt s) ->
  Forall (fun it => 0x8000 <= fst it <= 0xFFFF /\ 1 <= snd it)
         (mp_dbyte_char_cnt (scan_from P s b)).
Proof.
  revert s. induction b as [|x b IH]; intros s K F; [exact F|].
  rewrite scan_from_cons. apply IH; [now apply scan_step_slot_ok|].
  rewrite scan_step_mp.
  destruct (last_ch s =? EOF) eqn:E; cbn [negb]; [exact F|].
  apply Z.eqb_neq in E. destruct K as [K|K]; [contradiction|].
  pose proof (uchar_range x) as R.
  rewrite dbyte_char_digraph by lia.
  assert (D : 0x8000 <= digraph (last_ch s) (uchar x) <= 0xFFFF)
    by (unfold digraph; lia).
  revert D F. generalize (digraph (last_ch s) (uchar x)). intros k D.
  induction 1 as [|[k' v] m [H1 H2] Hm IHm]; cbn [map_incr].
  - repeat constructor; cbn; lia.
  - cbn [fst snd] in *.
    destruct (k <? k'); [repeat constructor; cbn; auto; lia|].
    destruct (k =? k'); constructor; cbn; auto; lia.
Qed.

(** X2.  After the scan the digraph map holds, under every key [k], the
    number of consumed digraph pairs of value [k] (zero, i.e. no entry,
    when there is none).  Its keys are in strictly ascending order,
    lie between 0x8000 and 0xFFFF (the first byte of a digraph is at
    least 0x80, and the 16-bit key never truncates), and every stored
    count is at least one. *)
Theorem mp_dbyte_char_cnt_counts_pairs (P : Platform) (g : globals)
    (buffer : list byte) :
  let m := mp_dbyte_char_cnt (scan P g buffer) in
  (forall k, map_lookup k m = pairs_of_value k (consumed_pairs None buffer)) /\
  StronglySorted (fun a b => fst a < fst b) m /\
  Forall (fun it => 0x8000 <= fst it <= 0xFFFF /\ 1 <= snd it) m.
Proof.
  cbv zeta. unfold scan. repeat split.
  - intros k. rewrite scan_from_mp_lookup; [reflexivity|now left|constructor].
  - apply scan_from_mp_ascending. constructor.
  - apply scan_from_mp_keys; [now left|constructor].
Qed.

(** ** The state of the checker (lines 287, 298-337) *)

Lemma utf8_switch_state_range tbl conformant state ch :
  1 <= state <= 4 ->
  1 <= snd (utf8_switch tbl conformant state ch) <= 4.
Proof.
  intros R. unfold utf8_switch.
  destruct conformant; [|exact R].
  destruct (nth (Z.to_nat ch) tbl UTF8_INVALID); cbn [enum_value];
    repeat match goal with
           | |- context [if ?c then _ else _] => destruct c eqn:?
           end; cbn [snd]; lia.
Qed.

(** X3.  Whatever the table holds and whatever the bytes are,
    [utf8_state] stays one of [UTF8_1] to [UTF8_4] during the scan: it
    never takes the value of [UTF8_INVALID] or [UTF8_TAIL], and the
    decrement on a continuation byte never goes below [UTF8_1]. *)
Theorem utf8_state_range (P : Platform) (g : globals) (buffer : list byte) :
  enum_value UTF8_1 <= utf8_state (scan P g buffer) <= enum_value UTF8_4.
Proof.
  cbn [enum_value]. unfold scan.
  assert (H : 1 <= utf8_state (scan_init g) <= 4) by (cbn; lia).
  revert H. generalize (scan_init g).
  induction buffer as [|x b IH]; intros s H; [exact H|].
  rewrite scan_from_cons. apply IH.
  pose proof (scan_step_utf8 P s x) as U.
  pose proof (utf8_switch_state_range (utf8_char_table (statics s))
                (is_utf8_conformant (statics s)) (utf8_state s) (uchar x) H)
    as R.
  rewrite <- U in R. exact R.
Qed.

(** ** Non-text bytes (lines 91, 137-145) *)

(** X5.  A byte is non-text exactly when it is 0x00, 0x1A or 0x7F, or
    when it is 0xFF and plain [char] is unsigned: where [char] is signed
    the byte 0xFF reaches [is_non_text] as -1, matches no entry of
    [NON_TEXT_CHARS] and does not count as non-text. *)
Theorem is_non_text_bytes (P : Platform) (x : byte) :
  is_non_text P (uchar x) = true <->
  uchar x = 0 \/ uchar x = 26 \/ uchar x = 127 \/
  (uchar x = 255 /\ char_is_signed P = false).
Proof.
  pose proof (uchar_range x) as R.
  unfold is_non_text, char_of_uchar, NON_TEXT_CHARS. cbn [existsb].
  destruct (char_is_signed P); cbn [andb].
  - destruct (127 <? uchar x) eqn:L;
      [apply Z.ltb_lt in L|apply Z.ltb_ge in L];
      rewrite !orb_true_iff, !Z.eqb_eq; split; intros H;
      repeat (destruct H as [H|H]); try lia; try discriminate; auto.
  - rewrite !orb_true_iff, !Z.eqb_eq. split; intros H;
      repeat (destruct H as [H|H]); try lia; try discriminate; auto.
Qed.

(** ** Filling the class table (lines 163-189) *)

Lemma fill_seq_nth (v : UTF8_State) ch n a tbl i d :
  0 <= ch ->
  nth i (fold_left (fun t k => set_nth (Z.to_nat (ch + Z.of_nat k)) v t)
                   (seq a n) tbl) d =
  if (ch + Z.of_nat a <=? Z.of_nat i) && (Z.of_nat i <? ch + Z.of_nat (a + n))
     && (i <? List.length tbl)%nat
  then v else nth i tbl d.
Proof.
  intros Hc. revert a tbl. induction n as [|n IH]; intros a tbl.
  - cbn [seq fold_left].
    destruct (Z.leb_spec (ch + Z.of_nat a) (Z.of_nat i));
      destruct (Z.ltb_spec (Z.of_nat i) (ch + Z.of_nat (a + 0)));
      cbn [andb]; try reflexivity. exfalso. lia.
  - cbn [seq fold_left]. rewrite IH, set_nth_length, set_nth_nth.
    destruct (Nat.ltb_spec i (List.length tbl)) as [L|L].
    + replace (Z.to_nat (ch + Z.of_nat a) <? List.length tbl)%nat
        with (Z.of_nat a + ch <? Z.of_nat (List.length tbl))
        by (destruct (Z.ltb_spec (Z.of_nat a + ch)
                        (Z.of_nat (List.length tbl)));
            symmetry; [apply Nat.ltb_lt|apply Nat.ltb_ge]; lia).
      destruct (Nat.eqb_spec i (Z.to_nat (ch + Z.of_nat a)));
        destruct (Z.ltb_spec (Z.of_nat a + ch) (Z.of_nat (List.length tbl)));
        destruct (Z.leb_spec (ch + Z.of_nat (S a)) (Z.of_nat i));
        destruct (Z.leb_spec (ch + Z.of_nat a) (Z.of_nat i));
        destruct (Z.ltb_spec (Z.of_nat i) (ch + Z.of_nat (S a + n)));
        destruct (Z.ltb_spec (Z.of_nat i) (ch + Z.of_nat (a + S n)));
        cbn [andb]; try reflexivity; exfalso; lia.
    + rewrite !andb_false_r.
      destruct (Nat.eqb_spec i (Z.to_nat (ch + Z.of_nat a))); cbn [andb];
        [|reflexivity].
      replace (Z.to_nat (ch + Z.of_nat a) <? List.length tbl)%nat with false
        by (symmetry; apply Nat.ltb_ge; lia).
      reflexivity.
Qed.

Lemma fill_upto_snd hi v st : snd (fill_upto hi v st) = Z.max (snd st) (hi + 1).
Proof. destruct st. reflexivity. Qed.

Lemma fill_upto_length hi v st :
  List.length (fst (fill_upto hi v st)) = List.length (fst st).
Proof.
  destruct st as [tbl ch]. cbn [fill_upto fst].
  generalize (seq 0 (Z.to_nat (hi + 1 - ch))). intros l. revert tbl.
  induction l as [|k l IH]; intros tbl; cbn [fold_left]; [reflexivity|].
  rewrite IH. apply set_nth_length.
Qed.

Lemma fill_upto_nth hi v st i d :
  0 <= snd st ->
  nth i (fst (fill_upto hi v st)) d =
  if (snd st <=? Z.of_nat i) && (Z.of_nat i <=? hi)
     && (i <? List.length (fst st))%nat
  then v else nth i (fst st) d.
Proof.
  destruct st as [tbl ch]. cbn [fill_upto fst snd]. intros H.
  rewrite fill_seq_nth by exact H.
  destruct (Z.leb_spec (ch + Z.of_nat 0) (Z.of_nat i));
    destruct (Z.leb_spec ch (Z.of_nat i));
    destruct (Z.ltb_spec (Z.of_nat i)
                (ch + Z.of_nat (0 + Z.to_nat (hi + 1 - ch))));
    destruct (Z.leb_spec (Z.of_nat i) hi);
    cbn [andb]; try reflexivity; exfalso; lia.
Qed.

(** The entries below [c] are those of the specification's table. *)
Definition table_filled_below (c : Z) (tbl : list UTF8_State) : Prop :=
  List.length tbl = MAX_CHAR /\
  forall i, Z.of_nat i < c -> nth i tbl UTF8_INVALID = utf8_class (Z.of_nat i).

Lemma fill_upto_filled hi v st :
  0 <= snd st <= hi + 1 -> hi < 256 ->
  (forall z, snd st <= z <= hi -> utf8_class z = v) ->
  table_filled_below (snd st) (fst st) ->
  table_filled_below (hi + 1) (fst (fill_upto hi v st)) /\
  snd (fill_upto hi v st) = hi + 1.
Proof.
  intros R M C [L F]. split; [split|].
  - rewrite fill_upto_length. exact L.
  - intros i Hi. rewrite fill_upto_nth by lia.
    destruct (Z.leb_spec (snd st) (Z.of_nat i)) as [A|A]; cbn [andb].
    + destruct (Z.leb_spec (Z.of_nat i) hi) as [B|B]; [|lia]. cbn [andb].
      replace (i <? List.length (fst st))%nat with true
        by (symmetry; apply Nat.ltb_lt; rewrite L; unfold MAX_CHAR; lia).
      symmetry. apply C. lia.
    + apply F. exact A.
  - rewrite fill_upto_snd. lia.
Qed.

Lemma utf8_class_ranges z :
  (1 <= z <= 0x7F -> utf8_class z = UTF8_1) /\
  (0x80 <= z <= 0xBF -> utf8_class z = UTF8_TAIL) /\
  (0xC0 <= z <= 0xC1 -> utf8_class z = UTF8_INVALID) /\
  (0xC2 <= z <= 0xDF -> utf8_class z = UTF8_2) /\
  (0xE0 <= z <= 0xEF -> utf8_class z = UTF8_3) /\
  (0xF0 <= z <= 0xF4 -> utf8_class z = UTF8_4) /\
  (0xF5 <= z <= 0xFF -> utf8_class z = UTF8_INVALID).
Proof.
  unfold utf8_class.
  repeat split; intros H;
    repeat match goal with
           | |- context [?a =? ?b] => destruct (Z.eqb_spec a b)
           | |- context [?a <=? ?b] => destruct (Z.leb_spec a b)
           end; try reflexivity; lia.
Qed.

Ltac class_by_range z :=
  let A := fresh in
  destruct (utf8_class_ranges z) as (? & ? & ? & ? & ? & ? & ?);
  match goal with
  | A : _ -> utf8_class z = ?v |- utf8_class z = ?v => apply A; lia
  end.

(** X4.  Called on a table of 256 entries, whatever they hold,
    [init_utf8_char_table] overwrites every entry: the class of each byte
    is the one of the specification's table, the result does not depend
    on the previous contents, a second call changes nothing, and the
    three flags are left as they were. *)
Theorem init_utf8_char_table_overwrites (g : globals) :
  List.length (utf8_char_table g) = MAX_CHAR ->
  (forall x : byte,
     nth (Z.to_nat (uchar x)) (utf8_char_table (init_utf8_char_table g))
         UTF8_INVALID = utf8_class (uchar x)) /\
  utf8_char_table (init_utf8_char_table g) = utf8_char_table fresh /\
  init_utf8_char_table (init_utf8_char_table g) = init_utf8_char_table g /\
  is_binary (init_utf8_char_table g) = is_binary g /\
  is_utf8_conformant (init_utf8_char_table g) = is_utf8_conformant g /\
  nul_stat (init_utf8_char_table g) = nul_stat g.
Proof.
  assert (A : forall g0, List.length (utf8_char_table g0) = MAX_CHAR ->
              table_filled_below 256
                (utf8_char_table (init_utf8_char_table g0))).
  { intros g0 L. unfold init_utf8_char_table. cbn [utf8_char_table].
    set (st0 := (set_nth (Z.to_nat 0) UTF8_INVALID (utf8_char_table g0),
                 0 + 1)).
    assert (F0 : table_filled_below (snd st0) (fst st0)).
    { split; cbn [fst snd st0].
      - rewrite set_nth_length. exact L.
      - intros i Hi. assert (i = 0%nat) by lia. subst i.
        rewrite set_nth_nth, L. reflexivity. }
    assert (S0 : snd st0 = 1) by reflexivity.
    rewrite S0 in F0.
    set (st1 := fill_upto 0x7F UTF8_1 st0).
    destruct (fill_upto_filled 0x7F UTF8_1 st0) as [F1 S1];
      [rewrite S0; lia|lia
      |rewrite S0; intros z Hz; class_by_range z
      |exact F0|].
    fold st1 in F1, S1.
    set (st2 := fill_upto 0xBF UTF8_TAIL st1).
    destruct (fill_upto_filled 0xBF UTF8_TAIL st1) as [F2 S2];
      [rewrite S1; lia|lia
      |rewrite S1; intros z Hz; class_by_range z
      |rewrite S1; exact F1|].
    fold st2 in F2, S2.
    set (st3 := fill_upto 0xC1 UTF8_INVALID st2).
    destruct (fill_upto_filled 0xC1 UTF8_INVALID st2) as [F3 S3];
      [rewrite S2; lia|lia
      |rewrite S2; intros z Hz; class_by_range z
      |rewrite S2; exact F2|].
    fold st3 in F3, S3.
    set (st4 := fill_upto 0xDF UTF8_2 st3).
    destruct (fill_upto_filled 0xDF UTF8_2 st3) as [F4 S4];
      [rewrite S3; lia|lia
      |rewrite S3; intros z Hz; class_by_range z
      |rewrite S3; exact F3|].
    fold st4 in F4, S4.
    set (st5 := fill_upto 0xEF UTF8_3 st4).
    destruct (fill_upto_filled 0xEF UTF8_3 st4) as [F5 S5];
      [rewrite S4; lia|lia
      |rewrite S4; intros z Hz; class_by_range z
      |rewrite S4; exact F4|].
    fold st5 in F5, S5.
    set (st6 := fill_upto 0xF4 UTF8_4 st5).
    destruct (fill_upto_filled 0xF4 UTF8_4 st5) as [F6 S6];
      [rewrite S5; lia|lia
      |rewrite S5; intros z Hz; class_by_range z
      |rewrite S5; exact F5|].
    fold st6 in F6, S6.
    set (st7 := fill_upto 0xFF UTF8_INVALID st6).
    destruct (fill_upto_filled 0xFF UTF8_INVALID st6) as [F7 S7];
      [rewrite S6; lia|lia
      |rewrite S6; intros z Hz; class_by_range z
      |rewrite S6; exact F6|].
    fold st7 in F7, S7.
    exact F7. }
  assert (B : forall g0, List.length (utf8_char_table g0) = MAX_CHAR ->
              utf8_char_table (init_utf8_char_table g0) =
              utf8_char_table fresh).
  { intros g0 L. destruct (A g0 L) as [L1 F1].
    destruct (A initial_globals eq_refl) as [L2 F2]. fold fresh in L2, F2.
    apply (nth_ext _ _ UTF8_INVALID UTF8_INVALID); [congruence|].
    intros i Hi. rewrite L1 in Hi. unfold MAX_CHAR in Hi.
    rewrite F1, F2 by lia. reflexivity. }
  intros L. destruct (A g L) as [L1 F1].
  split; [|split; [|split; [|repeat split]]].
  - intros x. pose proof (uchar_range x) as R.
    rewrite F1 by lia. rewrite Z2Nat.id by lia. reflexivity.
  - now apply B.
  - apply globals_eq; try reflexivity.
    rewrite !B; [reflexivity|exact L|exact L1].
Qed.

Lemma init_utf8_char_table_overwrites_witness :
  utf8_char_table
    (init_utf8_char_table
       {| utf8_char_table := repeat UTF8_TAIL MAX_CHAR;
          is_binary := true; is_utf8_conformant := false; nul_stat := 3 |})
  = utf8_char_table fresh.
Proof.
  apply (init_utf8_char_table_overwrites
           {| utf8_char_table := repeat UTF8_TAIL MAX_CHAR;
              is_binary := true; is_utf8_conformant := false;
              nul_stat := 3 |}).
  reflexivity.
Defined.

(** ** The byte order marks (lines 219-240, 275-280) *)

Lemma bytes_eqb_eq a b : bytes_eqb a b = true <-> a = b.
Proof.
  revert b. induction a as [|x a IH]; intros [|y b]; cbn [bytes_eqb];
    try (split; [discriminate|discriminate]); [tauto|].
  rewrite andb_true_iff, IH. split.
  - intros [E ->]. apply Byte.byte_dec_bl in E. now subst.
  - intros H. injection H as -> ->. split; [|reflexivity].
    now apply Byte.byte_dec_lb.
Qed.

Lemma check_ucs_bom_none_iff b :
  check_ucs_bom b = None <->
  Forall (fun p => firstn (pattern_len p) b <> pattern p) patterns.
Proof.
  unfold check_ucs_bom.
  destruct (find _ patterns) as [p|] eqn:F; cbn [option_map].
  - split; [discriminate|]. intros A.
    apply find_some in F. destruct F as [I M].
    rewrite Forall_forall in A. specialize (A p I).
    unfold memcmp_eq in M. apply bytes_eqb_eq in M.
    elim A. rewrite M.
    unfold patterns in I. cbn [In] in I.
    repeat (destruct I as [<-|I]; [reflexivity|]). elim I.
  - split; [intros _|reflexivity].
    rewrite Forall_forall. intros p I E.
    pose proof (find_none _ _ F p I) as M. cbn beta in M.
    unfold memcmp_eq in M.
    assert (T : bytes_eqb (firstn (pattern_len p) b)
                  (firstn (pattern_len p) (pattern p)) = true).
    { apply bytes_eqb_eq. rewrite E.
      unfold patterns in I. cbn [In] in I.
      repeat (destruct I as [<-|I]; [reflexivity|]). elim I. }
    congruence.
Qed.

(** X6.  The five byte order marks, for buffers of more than four
    bytes: each is recognised whatever follows it and whatever the
    statics hold, the statics are left untouched, and where marks
    overlap the four-byte one wins: FF FE 00 00 is "ucs-4le", and FF FE
    is "utf-16le" only when the next two bytes are not both zero.  A
    buffer is passed on to the scan exactly when it starts with none of
    the five patterns. *)
Theorem bom_detection (P : Platform) (g : globals) :
  (forall rest, (1 <= List.length rest)%nat ->
     tellenc P g (x00 :: x00 :: xfe :: xff :: rest) = (g, Some "ucs-4")) /\
  (forall rest, (1 <= List.length rest)%nat ->
     tellenc P g (xff :: xfe :: x00 :: x00 :: rest) = (g, Some "ucs-4le")) /\
  (forall rest, (3 <= List.length rest)%nat ->
     tellenc P g (xfe :: xff :: rest) = (g, Some "utf-16")) /\
  (forall rest, (3 <= List.length rest)%nat ->
     firstn 2 rest <> [x00; x00] ->
     tellenc P g (xff :: xfe :: rest) = (g, Some "utf-16le")) /\
  (forall b,
     check_ucs_bom b = None <->
     Forall (fun p => firstn (pattern_len p) b <> pattern p) patterns).
Proof.
  split; [|split; [|split; [|split]]].
  - intros [|r1 rest] H; cbn [List.length] in H; [lia|]. reflexivity.
  - intros [|r1 rest] H; cbn [List.length] in H; [lia|]. reflexivity.
  - intros [|r1 [|r2 [|r3 rest]]] H; cbn [List.length] in H; try lia.
    reflexivity.
  - intros [|r1 [|r2 [|r3 rest]]] H N; cbn [List.length] in H; try lia.
    unfold tellenc. cbn [List.length Nat.ltb Nat.leb].
    assert (E : Byte.eqb r1 x00 && (Byte.eqb r2 x00 && true) = false).
    { destruct (Byte.eqb r1 x00) eqn:E1; [|reflexivity].
      destruct (Byte.eqb r2 x00) eqn:E2; [|reflexivity].
      apply Byte.byte_dec_bl in E1, E2. subst. now elim N. }
    unfold check_ucs_bom, patterns, memcmp_eq.
    cbn [find pattern pattern_len firstn bytes_eqb].
    change (Byte.eqb xff x00) with false.
    change (Byte.eqb xff xff) with true.
    change (Byte.eqb xfe xfe) with true.
    change (Byte.eqb xff xef) with false.
    change (Byte.eqb xff xfe) with false.
    cbn [andb]. rewrite E. reflexivity.
  - apply check_ucs_bom_none_iff.
Qed.

Lemma bom_detection_witness :
  tellenc stable_platform fresh [xff; xfe; x41; x00; x42; x00]
  = (fresh, Some "utf-16le").
Proof.
  apply (proj1 (proj2 (proj2 (proj2 (bom_detection stable_platform fresh))))
           [x41; x00; x42; x00]).
  - cbn. lia.
  - discriminate.
Defined.

(** ** The digraph dictionary (lines 98-128, 242-266) *)

(** X7.  [check_dbyte] is a lookup in [freq_analysis_data]: it returns
    the label [e] for [d] exactly when the table has the entry
    [(d, e)], and nothing exactly when [d] is not a key of the table.  No
    key occurs twice, so the order of the table plays no part. *)
Theorem check_dbyte_lookup (d : Z) :
  (forall e, check_dbyte d = Some e <->
             In {| dbyte := d; enc := e |} freq_analysis_data) /\
  (check_dbyte d = None <-> ~ In d (map dbyte freq_analysis_data)) /\
  NoDup (map dbyte freq_analysis_data).
Proof.
  split; [|split].
  - intros e. split.
    + unfold check_dbyte.
      destruct (find _ freq_analysis_data) as [x|] eqn:F; cbn [option_map];
        [|discriminate].
      intros H. injection H as <-.
      apply find_some in F. destruct F as [I E].
      apply Z.eqb_eq in E. subst d. now destruct x.
    + unfold freq_analysis_data. cbn [In]. intros H.
      repeat (destruct H as [H|H];
              [injection H as <- <-; reflexivity|]).
      elim H.
  - unfold check_dbyte.
    destruct (find _ freq_analysis_data) as [x|] eqn:F; cbn [option_map].
    + split; [discriminate|]. intros N. elim N.
      apply find_some in F. destruct F as [I E].
      apply Z.eqb_eq in E. subst d. now apply in_map.
    + split; [|reflexivity]. intros _ I.
      apply in_map_iff in I. destruct I as (x & E & I).
      pose proof (find_none _ _ F x I) as M. cbn beta in M.
      apply Z.eqb_neq in M. congruence.
  - assert (E : nodup Z.eq_dec (map dbyte freq_analysis_data) =
                map dbyte freq_analysis_data) by (vm_compute; reflexivity).
    rewrite <- E. apply NoDup_nodup.
Qed.

Lemma check_freq_dbytes_first_ten v :
  check_freq_dbytes v = first_enc (firstn 10 v).
Proof.
  unfold check_freq_dbytes.
  destruct (Nat.ltb_spec (List.length v) 10) as [L|L]; [|reflexivity].
  rewrite firstn_all, firstn_all2 by lia. reflexivity.
Qed.

Lemma first_enc_none v :
  first_enc v = None <-> Forall (fun it => check_dbyte (fst it) = None) v.
Proof.
  induction v as [|it v IH]; cbn [first_enc].
  - split; [constructor|reflexivity].
  - destruct (check_dbyte (fst it)) eqn:C.
    + split; [discriminate|]. intros H. inversion H; subst. congruence.
    + rewrite IH. split; [now constructor|]. intros H. now inversion H.
Qed.

Lemma first_enc_app v w :
  first_enc (v ++ w) =
  match first_enc v with Some e => Some e | None => first_enc w end.
Proof.
  induction v as [|it v IH]; cbn [app first_enc]; [reflexivity|].
  destruct (check_dbyte (fst it)); [reflexivity|exact IH].
Qed.

(** X8.  [check_freq_dbytes] looks at the first ten entries of the
    vector and no further: entries from the eleventh on never change the
    result, even when they are in the dictionary.  Among the first ten
    the earliest entry found in the dictionary decides, and the result
    is [NULL] exactly when none of them is in the dictionary (so also
    for the empty vector). *)
Theorem check_freq_dbytes_top_ten :
  (forall v w, (10 <= List.length v)%nat ->
     check_freq_dbytes (v ++ w) = check_freq_dbytes v) /\
  (forall v it w e, (List.length v < 10)%nat ->
     Forall (fun it => check_dbyte (fst it) = None) v ->
     check_dbyte (fst it) = Some e ->
     check_freq_dbytes (v ++ it :: w) = Some e) /\
  (forall v, check_freq_dbytes v = None <->
     Forall (fun it => check_dbyte (fst it) = None) (firstn 10 v)).
Proof.
  split; [|split].
  - intros v w L. rewrite !check_freq_dbytes_first_ten.
    rewrite firstn_app.
    replace (10 - List.length v)%nat with 0%nat by lia.
    cbn [firstn]. now rewrite app_nil_r.
  - intros v it w e L N C. rewrite check_freq_dbytes_first_ten.
    rewrite firstn_app, (firstn_all2 v) by lia.
    destruct (10 - List.length v)%nat as [|k] eqn:K; [lia|].
    cbn [firstn]. rewrite first_enc_app.
    apply first_enc_none in N. rewrite N. cbn [first_enc]. now rewrite C.
  - intros v. rewrite check_freq_dbytes_first_ten. apply first_enc_none.
Qed.

Lemma check_freq_dbytes_top_ten_witness :
  check_freq_dbytes
    (repeat (0xb0b1, 5) 10 ++ [(0xb5c4, 4)]) =
  check_freq_dbytes (repeat (0xb0b1, 5) 10).
Proof.
  apply (proj1 check_freq_dbytes_top_ten
           (repeat (0xb0b1, 5) 10) [(0xb5c4, 4)]).
  cbn. lia.
Defined.

(** ** Text encoded in UTF-8 (lines 275-280, 298-337, 386-389) *)

(** The byte of value [z]. *)
Definition byte_of_Z (z : Z) : byte :=
  match Byte.of_N (Z.to_N z) with
  | Some b => b
  | None => x00
  end.

(** The UTF-8 encoding of a code point (RFC 3629), and of a text. *)
Definition utf8_encode_char (c : Z) : list byte :=
  if c <? 0x80 then [byte_of_Z c]
  else if c <? 0x800 then
    [byte_of_Z (0xC0 + c / 64); byte_of_Z (0x80 + c mod 64)]
  else if c <? 0x10000 then
    [byte_of_Z (0xE0 + c / 4096); byte_of_Z (0x80 + (c / 64) mod 64);
     byte_of_Z (0x80 + c mod 64)]
  else
    [byte_of_Z (0xF0 + c / 262144); byte_of_Z (0x80 + (c / 4096) mod 64);
     byte_of_Z (0x80 + (c / 64) mod 64); byte_of_Z (0x80 + c mod 64)].

Definition utf8_encode (text : list Z) : list byte :=
  flat_map utf8_encode_char text.

Lemma uchar_byte_of_Z z : 0 <= z < 256 -> uchar (byte_of_Z z) = z.
Proof.
  intros R. unfold byte_of_Z, uchar.
  destruct (Byte.of_N (Z.to_N z)) as [b|] eqn:E.
  - apply Byte.to_of_N in E. rewrite E. lia.
  - apply Byte.of_N_None_iff in E. lia.
Qed.

Lemma no_violation_step n x r :
  violation n (uchar x) = false ->
  no_violation n (x :: r) = no_violation (expecting_after n (uchar x)) r.
Proof. intros V. cbn [no_violation]. now rewrite V. Qed.

Lemma no_violation_lead z r :
  0xC2 <= z <= 0xF4 ->
  no_violation 0 (byte_of_Z z :: r) =
  no_violation (if z <=? 0xDF then 1 else if z <=? 0xEF then 2 else 3) r.
Proof.
  intros R. rewrite no_violation_step;
    unfold violation, expecting_after; rewrite uchar_byte_of_Z by lia;
    destruct (utf8_class_ranges z) as (_ & _ & _ & A2 & A3 & A4 & _);
    destruct (Z.leb_spec z 0xDF);
      [rewrite A2 by lia; reflexivity| |rewrite A2 by lia; reflexivity|];
    (destruct (Z.leb_spec z 0xEF);
       [rewrite A3 by lia; reflexivity|rewrite A4 by lia; reflexivity]).
Qed.

Lemma no_violation_tail n z r :
  0 < n -> 0x80 <= z <= 0xBF ->
  no_violation n (byte_of_Z z :: r) = no_violation (n - 1) r.
Proof.
  intros N R.
  destruct (utf8_class_ranges z) as (_ & A & _).
  rewrite no_violation_step;
    unfold violation, expecting_after; rewrite uchar_byte_of_Z by lia;
    rewrite A by lia; [reflexivity|].
  apply Z.leb_gt. exact N.
Qed.

Lemma no_violation_single z r :
  1 <= z <= 0x7F ->
  no_violation 0 (byte_of_Z z :: r) = no_violation 0 r.
Proof.
  intros R.
  destruct (utf8_class_ranges z) as (A & _).
  rewrite no_violation_step;
    unfold violation, expecting_after; rewrite uchar_byte_of_Z by lia;
    rewrite A by lia; reflexivity.
Qed.

Lemma utf8_encode_char_conformant c r :
  1 <= c <= 0x10FFFF ->
  no_violation 0 (utf8_encode_char c ++ r) = no_violation 0 r.
Proof.
  intros R. unfold utf8_encode_char.
  destruct (Z.ltb_spec c 0x80); [|destruct (Z.ltb_spec c 0x800);
    [|destruct (Z.ltb_spec c 0x10000)]]; cbn [app].
  - apply no_violation_single. lia.
  - rewrite no_violation_lead by (Z.div_mod_to_equations; lia).
    replace (0xC0 + c / 64 <=? 0xDF) with true
      by (symmetry; apply Z.leb_le; Z.div_mod_to_equations; lia).
    rewrite no_violation_tail by (Z.div_mod_to_equations; lia).
    reflexivity.
  - rewrite no_violation_lead by (Z.div_mod_to_equations; lia).
    replace (0xE0 + c / 4096 <=? 0xDF) with false
      by (symmetry; apply Z.leb_gt; Z.div_mod_to_equations; lia).
    replace (0xE0 + c / 4096 <=? 0xEF) with true
      by (symmetry; apply Z.leb_le; Z.div_mod_to_equations; lia).
    rewrite !no_violation_tail by (Z.div_mod_to_equations; lia).
    reflexivity.
  - rewrite no_violation_lead by (Z.div_mod_to_equations; lia).
    replace (0xF0 + c / 262144 <=? 0xDF) with false
      by (symmetry; apply Z.leb_gt; Z.div_mod_to_equations; lia).
    replace (0xF0 + c / 262144 <=? 0xEF) with false
      by (symmetry; apply Z.leb_gt; Z.div_mod_to_equations; lia).
    rewrite !no_violation_tail by (Z.div_mod_to_equations; lia).
    reflexivity.
Qed.

Lemma utf8_encode_conformant text :
  Forall (fun c => 1 <= c <= 0x10FFFF) text ->
  no_violation 0 (utf8_encode text) = true.
Proof.
  induction 1 as [|c text Hc Ht IH]; [reflexivity|].
  unfold utf8_encode. cbn [flat_map].
  rewrite utf8_encode_char_conformant by exact Hc. exact IH.
Qed.

(** The first byte of an encoded code point, and the two first bytes of
    one that is not ASCII. *)
Lemma utf8_encode_char_head c :
  1 <= c <= 0x10FFFF ->
  exists x t, utf8_encode_char c = x :: t /\ 1 <= uchar x <= 0xF4 /\
              (0x80 <= c -> 0x80 <= uchar x /\ t <> []).
Proof.
  intros R. unfold utf8_encode_char.
  destruct (Z.ltb_spec c 0x80); [|destruct (Z.ltb_spec c 0x800);
    [|destruct (Z.ltb_spec c 0x10000)]];
    eexists; eexists; (split; [reflexivity|]);
    rewrite uchar_byte_of_Z by (Z.div_mod_to_equations; lia);
    (split; [Z.div_mod_to_equations; lia|]); intros Hge;
    (split; [Z.div_mod_to_equations; lia
            |first [discriminate|exfalso; lia]]).
Qed.

Lemma consumed_pairs_nonempty p pre hi y post :
  0x80 <= uchar hi -> consumed_pairs p (pre ++ hi :: y :: post) <> [].
Proof.
  intros H. apply Z.leb_le in H.
  revert p. induction pre as [|x pre IH]; intros p; cbn [app consumed_pairs].
  - destruct p; [discriminate|]. rewrite H. discriminate.
  - destruct p; [discriminate|]. destruct (0x80 <=? uchar x); apply IH.
Qed.

Lemma check_ucs_bom_utf8_only x r :
  uchar x <> 0 -> uchar x <> 0xFF -> uchar x <> 0xFE ->
  check_ucs_bom (x :: r) = None \/ check_ucs_bom (x :: r) = Some "utf-8".
Proof.
  intros N0 Nff Nfe.
  assert (E0 : Byte.eqb x x00 = false)
    by (apply byte_eqb_neq; intros ->; now elim N0).
  assert (Eff : Byte.eqb x xff = false)
    by (apply byte_eqb_neq; intros ->; now elim Nff).
  assert (Efe : Byte.eqb x xfe = false)
    by (apply byte_eqb_neq; intros ->; now elim Nfe).
  unfold check_ucs_bom, patterns, memcmp_eq.
  cbn [find pattern pattern_len firstn bytes_eqb].
  rewrite E0, Eff, Efe. cbn [andb].
  match goal with
  | |- context [if ?c then _ else _] => destruct c
  end; cbn [option_map name]; auto.
Qed.

(** X9.  On every platform, started with the statics as [main] hands
    them over, [tellenc] returns "utf-8" for the UTF-8 encoding of every
    text of code points U+0001 to U+10FFFF that has at least one code
    point from U+0080 up: with or without a leading U+FEFF, whatever the
    length, and also when the text holds the control characters U+001A
    or U+007F that set the binary flag. *)
Theorem utf8_encoded_text (P : Platform) (text : list Z) :
  Forall (fun c => 1 <= c <= 0x10FFFF) text ->
  Exists (fun c => 0x80 <= c) text ->
  snd (tellenc P fresh (utf8_encode text)) = Some "utf-8".
Proof.
  intros R E.
  assert (C : is_utf8_conformant (statics (scan P fresh (utf8_encode text)))
              = true).
  { destruct (scan_from_conformant P (scan_init fresh) (utf8_encode text) 0
                eq_refl eq_refl eq_refl) as [C _].
    unfold scan. rewrite C. now apply utf8_encode_conformant. }
  assert (D : dbyte_cnt (scan P fresh (utf8_encode text)) <> 0).
  { destruct (scan_pairs P fresh (utf8_encode text)) as (D & _). rewrite D.
    apply Exists_exists in E. destruct E as (c & I & Hc).
    apply in_split in I. destruct I as (t1 & t2 & ->).
    rewrite Forall_forall in R.
    destruct (utf8_encode_char_head c) as (x & t & Ec & _ & Hx);
      [apply R, in_elt|].
    destruct (Hx Hc) as [Hhi Ht]. destruct t as [|y t]; [now elim Ht|].
    unfold utf8_encode. rewrite flat_map_app. cbn [flat_map].
    rewrite Ec. cbn [app].
    pose proof (consumed_pairs_nonempty None
                  (flat_map utf8_encode_char t1) x y
                  (t ++ flat_map utf8_encode_char t2) Hhi) as N.
    intros Z0. apply N. apply length_zero_iff_nil. lia. }
  unfold tellenc.
  destruct (if (4 <? List.length (utf8_encode text))%nat
            then check_ucs_bom (utf8_encode text) else None) as [l|] eqn:B;
    cbn [snd].
  - destruct (4 <? List.length (utf8_encode text))%nat; [|discriminate].
    destruct text as [|c text]; [inversion E|].
    inversion R as [|? ? Hc Ht]; subst.
    destruct (utf8_encode_char_head c Hc) as (x & t & Ec & Hx & _).
    unfold utf8_encode in B. cbn [flat_map] in B. rewrite Ec in B.
    cbn [app] in B.
    destruct (check_ucs_bom_utf8_only x (t ++ flat_map utf8_encode_char text))
      as [N|N]; try lia; congruence.
  - unfold verdict. rewrite C. cbn [negb andb].
    apply Z.eqb_neq in D. rewrite D. reflexivity.
Qed.

(** "Ça va": C3 87 61 20 76 61. *)
Lemma utf8_encoded_text_witness :
  snd (tellenc stable_platform fresh
         (utf8_encode [0xC7; 0x61; 0x20; 0x76; 0x61])) = Some "utf-8".
Proof.
  apply utf8_encoded_text.
  - repeat constructor; lia.
  - constructor. lia.
Defined.

(** ** UTF-16 without a byte order mark (lines 290-297, 377-385) *)

(** The UTF-16 encodings of a text of code points U+0001 to U+00FF, each
    given by its low byte. *)
Definition utf16le_encode (text : list byte) : list byte :=
  flat_map (fun c => [c; x00]) text.

Definition utf16be_encode (text : list byte) : list byte :=
  flat_map (fun c => [x00; c]) text.

Lemma NUL_is_violation n : violation n 0 = true.
Proof. reflexivity. Qed.

Lemma no_violation_NUL n b :
  In x00 b -> no_violation n b = false.
Proof.
  revert n. induction b as [|x b IH]; intros n I; [elim I|].
  cbn [no_violation]. destruct I as [->|I].
  - reflexivity.
  - rewrite (IH _ I). apply andb_false_r.
Qed.

Lemma non_text_NUL P b :
  In x00 b -> existsb (fun x => is_non_text P (uchar x)) b = true.
Proof.
  intros I. apply existsb_exists. exists x00. split; [exact I|].
  apply is_non_text_NUL.
Qed.

Lemma uchar_nonzero x : uchar x <> 0 -> x <> x00.
Proof. intros N ->. now elim N. Qed.

Lemma nul_parity_le text pos :
  Forall (fun c => uchar c <> 0) text -> Z.odd pos = false ->
  nul_at_parity true pos (utf16le_encode text) = negb (Nat.eqb (List.length text) 0)
  /\ nul_at_parity false pos (utf16le_encode text) = false.
Proof.
  intros F. revert pos. induction F as [|c text Hc Ht IH]; intros pos O;
    [split; reflexivity|].
  unfold utf16le_encode. cbn [flat_map app nul_at_parity List.length Nat.eqb negb].
  assert (O1 : Z.odd (pos + 1) = true)
    by (rewrite Z.odd_add, O; reflexivity).
  assert (O2 : Z.odd (pos + 1 + 1) = false)
    by (rewrite Z.odd_add, O1; reflexivity).
  destruct (IH _ O2) as [_ I2]. fold (utf16le_encode text). rewrite I2, O, O1.
  replace (uchar c =? 0) with false by (symmetry; now apply Z.eqb_neq).
  split; reflexivity.
Qed.

Lemma nul_parity_be text pos :
  Forall (fun c => uchar c <> 0) text -> Z.odd pos = false ->
  nul_at_parity false pos (utf16be_encode text) = negb (Nat.eqb (List.length text) 0)
  /\ nul_at_parity true pos (utf16be_encode text) = false.
Proof.
  intros F. revert pos. induction F as [|c text Hc Ht IH]; intros pos O;
    [split; reflexivity|].
  unfold utf16be_encode. cbn [flat_map app nul_at_parity List.length Nat.eqb negb].
  assert (O1 : Z.odd (pos + 1) = true)
    by (rewrite Z.odd_add, O; reflexivity).
  assert (O2 : Z.odd (pos + 1 + 1) = false)
    by (rewrite Z.odd_add, O1; reflexivity).
  destruct (IH _ O2) as [_ I2]. fold (utf16be_encode text). rewrite I2, O, O1.
  replace (uchar c =? 0) with false by (symmetry; now apply Z.eqb_neq).
  split; reflexivity.
Qed.

(** Rule 1 from the statics as [main] hands them over: for a buffer
    that holds a NUL byte and is not decided by a BOM, the label is read
    off the parities of the offsets of its NUL bytes. *)
Lemma tellenc_with_NUL P b :
  In x00 b ->
  (List.length b <= 4)%nat \/ check_ucs_bom b = None ->
  snd (tellenc P fresh b) =
  Some (match nul_at_parity true 0 b, nul_at_parity false 0 b with
        | true, false => "utf-16le"
        | false, true => "utf-16"
        | _, _ => "binary"
        end).
Proof.
  intros I B. rewrite tellenc_scanned by exact B. cbn [snd].
  unfold verdict, scan.
  destruct (scan_from_conformant P (scan_init fresh) b 0
              eq_refl eq_refl eq_refl) as [C _].
  rewrite C, (no_violation_NUL 0 b I), scan_from_is_binary,
    (non_text_NUL P b I), orb_true_r, scan_from_nul_stat.
  cbn [negb andb scan_init statics offset].
  destruct (nul_at_parity true 0 b), (nul_at_parity false 0 b); reflexivity.
Qed.

(** X10.  UTF-16 text without a byte order mark is told by the parity
    of its NUL bytes: on every platform, for every non-empty text of
    code points U+0001 to U+00FF, [tellenc] returns "utf-16le" for its
    little-endian encoding and "utf-16" for its big-endian encoding. *)
Theorem utf16_without_bom (P : Platform) (text : list byte) :
  text <> [] ->
  Forall (fun c => uchar c <> 0) text ->
  snd (tellenc P fresh (utf16le_encode text)) = Some "utf-16le" /\
  snd (tellenc P fresh (utf16be_encode text)) = Some "utf-16".
Proof.
  intros N F. destruct text as [|c text]; [now elim N|].
  inversion F as [|? ? Hc Ht]; subst.
  pose proof (uchar_nonzero c Hc) as Nc.
  destruct (nul_parity_le (c :: text) 0 F eq_refl) as [L1 L2].
  destruct (nul_parity_be (c :: text) 0 F eq_refl) as [B1 B2].
  split.
  - rewrite tellenc_with_NUL.
    + rewrite L1, L2. reflexivity.
    + cbn. auto.
    + right. apply check_ucs_bom_none_iff. unfold patterns.
      repeat constructor; cbn [pattern pattern_len firstn utf16le_encode
        flat_map app]; intros E; injection E; intros; subst;
        congruence.
  - rewrite tellenc_with_NUL.
    + rewrite B1, B2. reflexivity.
    + cbn. auto.
    + right. apply check_ucs_bom_none_iff. unfold patterns.
      repeat constructor; cbn [pattern pattern_len firstn utf16be_encode
        flat_map app]; intros E; injection E; intros; subst;
        congruence.
Qed.

(** "Hi" in UTF-16: 48 00 69 00 and 00 48 00 69. *)
Lemma utf16_without_bom_witness :
  snd (tellenc stable_platform fresh (utf16le_encode [x48; x69]))
    = Some "utf-16le" /\
  snd (tellenc stable_platform fresh (utf16be_encode [x48; x69]))
    = Some "utf-16".
Proof.
  apply utf16_without_bom.
  - discriminate.
  - repeat constructor; vm_compute; discriminate.
Defined.

(** ** Plain text with one more byte (lines 339-349, 386-387) *)

Lemma low_bytes_pairs_app b r :
  Forall (fun x => uchar x < 0x80) b ->
  consumed_pairs None (b ++ r) = consumed_pairs None r.
Proof.
  induction 1 as [|x b Hx Hb IH]; [reflexivity|].
  cbn [app consumed_pairs].
  replace (0x80 <=? uchar x) with false by (symmetry; apply Z.leb_gt; lia).
  exact IH.
Qed.

Lemma plain_text_first x r : plain_text x -> check_ucs_bom (x :: r) = None.
Proof.
  intros [R N].
  apply check_ucs_bom_first; intros ->; vm_compute in R;
    destruct R as [R1 R2]; (now elim R1) || (now elim R2).
Qed.

(** X14.  On every platform, plain text (bytes 0x01-0x7E other than
    0x1A) followed by one final byte that is not a non-text byte is
    "ascii", whatever that byte is: after plain text the pending slot is
    empty, so a final byte of 0x80 or more is put in the slot and no
    digraph is counted. *)
Theorem trailing_byte_unnoticed (P : Platform) (b : list byte) (x : byte) :
  Forall plain_text b ->
  is_non_text P (uchar x) = false ->
  snd (tellenc P fresh (b ++ [x])) = Some "ascii".
Proof.
  intros H X.
  assert (L : Forall (fun y => uchar y < 0x80) b)
    by (eapply Forall_impl; [|exact H]; intros y [R _]; lia).
  rewrite tellenc_scanned.
  - cbn [snd]. unfold verdict, scan.
    rewrite scan_from_is_binary. cbn [scan_init statics is_binary fresh
      init_utf8_char_table initial_globals].
    replace (existsb (fun y => is_non_text P (uchar y)) (b ++ [x]))
      with false.
    + rewrite andb_false_r.
      destruct (scan_pairs P fresh (b ++ [x])) as (D & _).
      fold (scan P fresh (b ++ [x])). rewrite D, low_bytes_pairs_app by exact L.
      cbn [consumed_pairs]. destruct (0x80 <=? uchar x); reflexivity.
    + symmetry. rewrite existsb_app. cbn [existsb]. rewrite X.
      replace (existsb (fun y => is_non_text P (uchar y)) b) with false;
        [reflexivity|].
      symmetry. clear L. induction H as [|y b Hy Hb IH]; [reflexivity|].
      cbn [existsb]. rewrite (plain_text_not_non_text P y Hy). exact IH.
  - destruct b as [|y b]; [left; cbn; lia|].
    right. cbn [app]. apply plain_text_first. now inversion H.
Qed.

(** "caf" followed by a Latin-1 e acute. *)
Lemma trailing_byte_unnoticed_witness :
  snd (tellenc stable_platform fresh ([x63; x61; x66] ++ [xe9]))
  = Some "ascii".
Proof.
  apply trailing_byte_unnoticed.
  - repeat constructor; vm_compute; discriminate.
  - reflexivity.
Defined.

(** ** Without the table (lines 96, 426) *)

Lemma verdict_not_utf8 P s :
  is_utf8_conformant (statics s) = false -> verdict P s <> Some "utf-8".
Proof.
  intros C. unfold verdict, check_freq_dbytes. rewrite C. cbn [negb andb].
  repeat match goal with
         | |- context [if ?c then _ else _] => destruct c
         end; try discriminate;
    intros E; apply first_enc_labels in E; destruct E; discriminate.
Qed.

(** X15.  [tellenc] relies on [main] having filled the class table.
    With the table as the loader leaves it, every entry is
    [UTF8_INVALID], the first byte scanned clears the conformance flag,
    and no scanned buffer is ever labelled "utf-8". *)
Theorem tellenc_needs_the_table (P : Platform) (b : list byte) :
  b <> [] ->
  (List.length b <= 4)%nat \/ check_ucs_bom b = None ->
  is_utf8_conformant (fst (tellenc P initial_globals b)) = false /\
  snd (tellenc P initial_globals b) <> Some "utf-8".
Proof.
  intros N B. rewrite tellenc_scanned by exact B. cbn [fst snd].
  assert (C : is_utf8_conformant (statics (scan P initial_globals b)) = false).
  { destruct b as [|x b]; [now elim N|].
    unfold scan. rewrite scan_from_cons. apply scan_from_nonconformant.
    pose proof (scan_step_utf8 P (scan_init initial_globals) x) as U.
    cbn [scan_init statics initial_globals utf8_char_table
         is_utf8_conformant utf8_state] in U.
    unfold utf8_switch in U.
    pose proof (uchar_range x) as R.
    rewrite nth_repeat in U. now injection U as U _. }
  split; [exact C|]. now apply verdict_not_utf8.
Qed.

(** The bytes C3 A9 of a UTF-8 e acute, without the table. *)
Lemma tellenc_needs_the_table_witness :
  is_utf8_conformant (fst (tellenc stable_platform initial_globals [xc3; xa9]))
    = false /\
  snd (tellenc stable_platform initial_globals [xc3; xa9]) <> Some "utf-8".
Proof.
  apply tellenc_needs_the_table.
  - discriminate.
  - left. cbn. lia.
Defined.

(** ** The statistical rules (lines 390-396) *)

(** The decision for a scanned buffer without non-text bytes that is not
    UTF-8 and has a digraph. *)
Lemma statistical_verdict_wrap P b :
  Forall (fun x => is_non_text P (uchar x) = false) b ->
  no_violation 0 b = false ->
  (List.length b <= 4)%nat \/ check_ucs_bom b = None ->
  consumed_pairs None b <> [] ->
  let D := Z.of_nat (List.length (consumed_pairs None b)) in
  let H := Z.of_nat (List.length (filter hi_hi (consumed_pairs None b))) in
  0 < D /\ 0 <= H <= D /\
  snd (tellenc P fresh b) =
  if size_t_wrap P (H * 100) / D <? 5 then Some "latin1"
  else if H =? D then Some "gb2312"
  else check_freq_dbytes (sorted_dbyte_char_cnt P (scan P fresh b)).
Proof.
  intros T V B N D H.
  assert (Dpos : 0 < D).
  { subst D. destruct (consumed_pairs None b); [now elim N|].
    cbn [List.length]. lia. }
  assert (HD : 0 <= H <= D).
  { subst D H. pose proof (filter_length_le hi_hi (consumed_pairs None b)).
    lia. }
  split; [exact Dpos|]. split; [exact HD|].
  rewrite tellenc_scanned by exact B. cbn [snd]. unfold verdict.
  destruct (scan_pairs P fresh b) as (ED & EH & _).
  fold D in ED. fold H in EH. rewrite ED, EH.
  destruct (scan_from_conformant P (scan_init fresh) b 0
              eq_refl eq_refl eq_refl) as [C _].
  fold (scan P fresh b) in C. rewrite C, V. cbn [negb andb].
  unfold scan at 1. rewrite scan_from_is_binary.
  cbn [scan_init statics is_binary fresh init_utf8_char_table
       initial_globals orb].
  replace (existsb (fun x => is_non_text P (uchar x)) b) with false.
  - replace (D =? 0) with false by (symmetry; apply Z.eqb_neq; lia).
    reflexivity.
  - symmetry. clear -T. induction T as [|x b Hx Hb IH]; [reflexivity|].
    cbn [existsb]. now rewrite Hx, IH.
Qed.

(** The same when the product does not wrap. *)
Lemma statistical_verdict P b :
  Forall (fun x => is_non_text P (uchar x) = false) b ->
  no_violation 0 b = false ->
  (List.length b <= 4)%nat \/ check_ucs_bom b = None ->
  consumed_pairs None b <> [] ->
  50 * Z.of_nat (List.length b) < 2 ^ Z.of_N (size_t_bits P) ->
  let D := Z.of_nat (List.length (consumed_pairs None b)) in
  let H := Z.of_nat (List.length (filter hi_hi (consumed_pairs None b))) in
  0 < D /\ 0 <= H <= D /\
  snd (tellenc P fresh b) =
  if H * 100 / D <? 5 then Some "latin1"
  else if H =? D then Some "gb2312"
  else check_freq_dbytes (sorted_dbyte_char_cnt P (scan P fresh b)).
Proof.
  intros T V B N W D H.
  destruct (statistical_verdict_wrap P b T V B N) as (Dpos & HD & E).
  fold D in Dpos, HD, E. fold H in HD, E.
  split; [exact Dpos|]. split; [exact HD|].
  rewrite E. unfold size_t_wrap. rewrite Z.mod_small; [reflexivity|].
  pose proof (consumed_pairs_length None b) as L. cbv beta iota in L.
  subst D H. lia.
Qed.

(** X12.  For a scanned buffer without non-text bytes that is not
    conformant UTF-8 and has at least one digraph, on a platform where
    [H * 100] does not wrap (50 times the length fits [size_t]): the
    label is "latin1" exactly when fewer than one digraph in twenty is
    hi-hi, and otherwise "gb2312" exactly when every digraph is hi-hi;
    in the remaining case it is what the dictionary says of the sorted
    digraphs. *)
Theorem latin1_threshold (P : Platform) (b : list byte) :
  Forall (fun x => is_non_text P (uchar x) = false) b ->
  no_violation 0 b = false ->
  (List.length b <= 4)%nat \/ check_ucs_bom b = None ->
  consumed_pairs None b <> [] ->
  50 * Z.of_nat (List.length b) < 2 ^ Z.of_N (size_t_bits P) ->
  let D := Z.of_nat (List.length (consumed_pairs None b)) in
  let H := Z.of_nat (List.length (filter hi_hi (consumed_pairs None b))) in
  (snd (tellenc P fresh b) = Some "latin1" <-> 20 * H < D) /\
  (D <= 20 * H ->
   (snd (tellenc P fresh b) = Some "gb2312" <->
    Forall (fun d => hi_hi d = true) (consumed_pairs None b))) /\
  (D <= 20 * H -> H < D ->
   snd (tellenc P fresh b) =
   check_freq_dbytes (sorted_dbyte_char_cnt P (scan P fresh b))).
Proof.
  intros T V B N W D H.
  destruct (statistical_verdict P b T V B N W) as (Dpos & HD & E).
  fold D in Dpos, HD, E. fold H in HD, E.
  assert (Q : H * 100 / D < 5 <-> 20 * H < D).
  { split; intros A.
    - destruct (Z.lt_ge_cases (20 * H) D) as [L|L]; [exact L|].
      assert (5 <= H * 100 / D) by (apply Z.div_le_lower_bound; lia). lia.
    - apply Z.div_lt_upper_bound; lia. }
  assert (G : forall e, check_freq_dbytes
                          (sorted_dbyte_char_cnt P (scan P fresh b)) = Some e ->
                        e <> "latin1" /\ e <> "gb2312").
  { intros e F. rewrite check_freq_dbytes_first_ten in F.
    apply first_enc_labels in F. destruct F as [-> | ->]; split; discriminate. }
  rewrite E. split; [|split].
  - destruct (Z.ltb_spec (H * 100 / D) 5) as [A|A].
    + split; [intros _; now apply Q|reflexivity].
    + split; [|intros L; apply Q in L; lia].
      destruct (H =? D); [discriminate|]. intros F. now apply G in F.
  - intros L. rewrite <- filter_length_all.
    destruct (Z.ltb_spec (H * 100 / D) 5) as [A|A]; [apply Q in A; lia|].
    destruct (Z.eqb_spec H D) as [K|K].
    + split; [intros _; subst D H; lia|reflexivity].
    + split; [intros F; now apply G in F|].
      intros F. elim K. subst D H. now rewrite F.
  - intros L1 L2.
    destruct (Z.ltb_spec (H * 100 / D) 5) as [A|A]; [apply Q in A; lia|].
    destruct (Z.eqb_spec H D) as [K|K]; [lia|reflexivity].
Qed.

(** "el niño ": one digraph, F1 6F, not hi-hi. *)
Lemma latin1_threshold_witness :
  snd (tellenc stable_platform fresh [x65; x6c; x20; x6e; x69; xf1; x6f; x20])
    = Some "latin1" <->
  20 * Z.of_nat (List.length (filter hi_hi (consumed_pairs None
                    [x65; x6c; x20; x6e; x69; xf1; x6f; x20])))
  < Z.of_nat (List.length (consumed_pairs None
                    [x65; x6c; x20; x6e; x69; xf1; x6f; x20])).
Proof.
  apply (latin1_threshold stable_platform
           [x65; x6c; x20; x6e; x69; xf1; x6f; x20]).
  - repeat constructor.
  - reflexivity.
  - right. reflexivity.
  - discriminate.
  - reflexivity.
Defined.

Lemma high_bytes_not_non_text P x :
  0xA1 <= uchar x <= 0xFE -> is_non_text P (uchar x) = false.
Proof.
  intros R. unfold is_non_text, char_of_uchar, NON_TEXT_CHARS. cbn [existsb].
  replace (127 <? uchar x) with true by (symmetry; apply Z.ltb_lt; lia).
  destruct (char_is_signed P); cbn [andb];
    rewrite !orb_false_iff; repeat split; try apply Z.eqb_neq; lia.
Qed.

Lemma high_bytes_pairs p b :
  Forall (fun x => 0xA0 < uchar x) b ->
  match p with Some q => 0xA0 < q | None => True end ->
  Forall (fun d => hi_hi d = true) (consumed_pairs p b).
Proof.
  intros F. revert p. induction F as [|x b Hx Hb IH]; intros p Hp;
    cbn [consumed_pairs]; [constructor|].
  destruct p as [q|].
  - constructor; [|now apply IH].
    unfold hi_hi. cbn [fst snd]. apply andb_true_iff.
    split; apply Z.ltb_lt; lia.
  - destruct (0x80 <=? uchar x); apply IH; [exact Hx|exact I].
Qed.

Lemma byte_out_of_range x v lo hi :
  lo <= uchar x <= hi -> uchar v < lo \/ hi < uchar v -> x <> v.
Proof. intros R O ->. lia. Qed.

(** X11.  On every platform where 50 times the length fits [size_t], a
    buffer of at least two bytes, all of them in 0xA1-0xFE, that is not
    conformant UTF-8 and does not start with EF BB BF (or has at most
    four bytes) is "gb2312". *)
Theorem gb2312_high_bytes (P : Platform) (b : list byte) :
  Forall (fun x => 0xA1 <= uchar x <= 0xFE) b ->
  (2 <= List.length b)%nat ->
  no_violation 0 b = false ->
  (List.length b <= 4)%nat \/ firstn 3 b <> [xef; xbb; xbf] ->
  50 * Z.of_nat (List.length b) < 2 ^ Z.of_N (size_t_bits P) ->
  snd (tellenc P fresh b) = Some "gb2312".
Proof.
  intros R L V B W.
  destruct b as [|x [|y r]]; cbn [List.length] in L; try lia.
  assert (Rx : 0xA1 <= uchar x <= 0xFE) by (now inversion R).
  assert (Ry : 0xA1 <= uchar y <= 0xFE)
    by (inversion R as [|? ? ? R']; now inversion R').
  assert (N : consumed_pairs None (x :: y :: r) <> []).
  { apply (consumed_pairs_nonempty None [] x y r). lia. }
  assert (A : Forall (fun d => hi_hi d = true)
                     (consumed_pairs None (x :: y :: r))).
  { apply high_bytes_pairs; [|exact I].
    eapply Forall_impl; [|exact R]. cbn beta. intros; lia. }
  assert (B' : (List.length (x :: y :: r) <= 4)%nat \/
               check_ucs_bom (x :: y :: r) = None).
  { destruct B as [B|B]; [now left|right].
    apply check_ucs_bom_none_iff. unfold patterns.
    pose proof (byte_out_of_range x x00 _ _ Rx) as N0.
    pose proof (byte_out_of_range x xff _ _ Rx) as N1.
    pose proof (byte_out_of_range y xff _ _ Ry) as N2.
    repeat constructor; cbn [pattern pattern_len]; try exact B;
      cbn [firstn]; intros E; injection E; intros; subst.
    - apply N0; [left; vm_compute|]; reflexivity.
    - apply N1; [right; vm_compute|]; reflexivity.
    - apply N2; [right; vm_compute|]; reflexivity.
    - apply N1; [right; vm_compute|]; reflexivity. }
  destruct (statistical_verdict P (x :: y :: r)) as (Dpos & HD & E);
    try assumption.
  { eapply Forall_impl; [|exact R]. intros z. apply high_bytes_not_non_text. }
  cbv zeta in Dpos. rewrite E. apply filter_length_all in A. rewrite A.
  rewrite (Z.mul_comm _ 100), Z.div_mul by lia.
  rewrite Z.eqb_refl. reflexivity.
Qed.

(** B0 B1 fifty times over. *)
Lemma gb2312_high_bytes_witness :
  snd (tellenc stable_platform fresh (List.concat (repeat [xb0; xb1] 50)))
  = Some "gb2312".
Proof.
  apply gb2312_high_bytes.
  - vm_compute. repeat constructor; discriminate.
  - vm_compute. lia.
  - reflexivity.
  - right. discriminate.
  - reflexivity.
Defined.

(** ** The product of the latin1 test (line 390) *)

Lemma repeated_pair_head n :
  List.concat (repeat [xb0; xb1] (S n)) =
  xb0 :: xb1 :: List.concat (repeat [xb0; xb1] n).
Proof. reflexivity. Qed.

Lemma repeated_pair_range n :
  Forall (fun x => 0xA1 <= uchar x <= 0xFE)
         (List.concat (repeat [xb0; xb1] n)).
Proof.
  induction n as [|n IH]; [constructor|].
  rewrite repeated_pair_head.
  constructor; [vm_compute; split; discriminate|].
  constructor; [vm_compute; split; discriminate|exact IH].
Qed.

Lemma repeated_pair_pairs n :
  consumed_pairs None (List.concat (repeat [xb0; xb1] n)) =
  repeat (uchar xb0, uchar xb1) n.
Proof.
  induction n as [|n IH]; [reflexivity|].
  rewrite repeated_pair_head. cbn [consumed_pairs repeat].
  change (0x80 <=? uchar xb0) with true. cbv iota. now rewrite IH.
Qed.

(** X16.  The product [dbyte_hihi_cnt * 100] is computed in [size_t]
    and can wrap.  For [n >= 1] repetitions of the hi-hi pair B0 B1 the
    label is "gb2312" unless the wrapped product divided by [n] falls
    below 5, in which case it is "latin1": with a 32-bit [size_t] this
    happens at 42949673 repetitions, where [n * 100] wraps to 4. *)
Theorem hihi_product_wraps (P : Platform) (n : nat) :
  (1 <= n)%nat ->
  snd (tellenc P fresh (List.concat (repeat [xb0; xb1] n))) =
  if size_t_wrap P (Z.of_nat n * 100) / Z.of_nat n <? 5
  then Some "latin1" else Some "gb2312".
Proof.
  intros H. destruct n as [|n]; [lia|].
  assert (A : filter hi_hi (repeat (uchar xb0, uchar xb1) (S n)) =
              repeat (uchar xb0, uchar xb1) (S n)).
  { generalize (S n). intros k. induction k as [|k IH]; [reflexivity|].
    cbn [repeat filter].
    change (hi_hi (uchar xb0, uchar xb1)) with true. cbv iota.
    now rewrite IH. }
  destruct (statistical_verdict_wrap P (List.concat (repeat [xb0; xb1] (S n))))
    as (_ & _ & E).
  - eapply Forall_impl; [|apply repeated_pair_range].
    intros x. apply high_bytes_not_non_text.
  - reflexivity.
  - right. rewrite repeated_pair_head. apply check_ucs_bom_first; discriminate.
  - rewrite repeated_pair_pairs. discriminate.
  - rewrite E, repeated_pair_pairs, A, repeat_length, Z.eqb_refl.
    reflexivity.
Qed.

Lemma hihi_product_wraps_witness :
  snd (tellenc stable_platform fresh
         (List.concat (repeat [xb0; xb1] (Z.to_nat 42949673))))
  = Some "latin1".
Proof.
  rewrite (hihi_product_wraps stable_platform (Z.to_nat 42949673)) by lia.
  rewrite Z2Nat.id by lia. reflexivity.
Defined.

(** ** The bounded read of [main] (lines 422-431) *)

Lemma tellenc_ascii P b :
  Forall (fun x => 1 <= uchar x <= 0x7F) b ->
  snd (tellenc P fresh b) = Some "ascii".
Proof.
  intros H.
  rewrite tellenc_scanned by (right; now apply ascii_no_bom).
  cbn [snd]. unfold verdict.
  destruct (scan_from_conformant P (scan_init fresh) b 0
              eq_refl eq_refl eq_refl) as [C _].
  fold (scan P fresh b) in C.
  rewrite C, (ascii_no_violation b H). cbn [negb andb].
  destruct (scan_pairs P fresh b) as (D & _).
  rewrite D, low_bytes_no_pairs; [reflexivity|].
  eapply Forall_impl; [|exact H]. cbn beta. intros; lia.
Qed.

(** X13.  [main] classifies the first [TELLENC_BUFFER_SIZE] bytes of
    the file and nothing else: what follows them never changes the
    printed label.  In particular a file whose first 100000 bytes are
    ASCII is printed as "ascii" whatever comes after. *)
Theorem main_reads_a_bounded_prefix (P : Platform)
    (head rest : list byte) :
  List.length head = Z.to_nat TELLENC_BUFFER_SIZE ->
  main_output P (head ++ rest) = main_output P head /\
  (Forall (fun x => 1 <= uchar x <= 0x7F) head ->
   main_output P (head ++ rest) = "ascii").
Proof.
  intros L.
  assert (E : firstn (Z.to_nat TELLENC_BUFFER_SIZE) (head ++ rest) = head).
  { rewrite firstn_app, L, Nat.sub_diag, <- L, firstn_all.
    cbn [firstn]. apply app_nil_r. }
  assert (E' : firstn (Z.to_nat TELLENC_BUFFER_SIZE) head = head)
    by (rewrite <- L; apply firstn_all).
  unfold main_output. rewrite E, E'. split; [reflexivity|].
  intros A. fold fresh. now rewrite (tellenc_ascii P head A).
Qed.

(** 100000 letters "A", then the bytes FF 00. *)
Lemma main_reads_a_bounded_prefix_witness :
  main_output stable_platform
    (repeat x41 (Z.to_nat TELLENC_BUFFER_SIZE) ++ [xff; x00])
  = main_output stable_platform (repeat x41 (Z.to_nat TELLENC_BUFFER_SIZE)).
Proof.
  exact (proj1 (main_reads_a_bounded_prefix stable_platform
                  (repeat x41 (Z.to_nat TELLENC_BUFFER_SIZE)) [xff; x00]
                  (repeat_length x41 (Z.to_nat TELLENC_BUFFER_SIZE)))).
Defined.
